(** * Token balance service: account identifiers, CRC-32, balance formatting,
      token metadata cache and balance queries.

    A shallow embedding of [TokenBalanceService] (the TypeScript class that
    follows the JSON manifest in [dfx.json]) together with the properties
    stated about it.

    Conventions of the embedding:
    - a [Uint8Array] is a [list byte]; its element type already excludes
      values outside 0..255;
    - a JavaScript [Number] that takes part in the bitwise operators is
      a [Z], with the conversions [ToInt32] and [ToUint32] of the language
      written out at every operator;
    - a [bigint] is a [Z];
    - a [Number] that goes through [**] is an IEEE 754 binary64 value,
      a [spec_float] of the standard library;
    - a [Map<string, _>] is a [gmap string _];
    - a JavaScript string is a [string]; the statements depend on ASCII
      text only;
    - a thrown exception or a rejected promise is the [Throws] case of
      [Completion];
    - [console.log], [console.warn] and [console.error] are not modelled. *)

From Stdlib Require Import ZArith List Lia.
From Stdlib Require Import Strings.String Strings.Ascii Strings.Byte Floats.SpecFloat.
From stdpp Require Import gmap strings.
Import ListNotations.

Local Open Scope Z_scope.

(* ===================================================================== *)
(** * Part I: definitions                                                 *)
(* ===================================================================== *)

(** ** Completions: a value, or something thrown *)

(** What a [catch (error)] clause can receive: an [Error] object, of which
    the code reads [message], or any other value, of which the code takes
    [String(error)]. *)
Inductive Thrown : Type :=
| ErrorObject (message : string)
| OtherValue (asString : string).

Inductive Completion (A : Type) : Type :=
| Normal (a : A)
| Throws (e : Thrown).
Arguments Normal {A} a.
Arguments Throws {A} e.

(** ** 32-bit integer operators of JavaScript *)

Module Int32.

Definition ToInt32 (x : Z) : Z := (x + 2 ^ 31) mod 2 ^ 32 - 2 ^ 31.
Definition ToUint32 (x : Z) : Z := x mod 2 ^ 32.

(** [a ^ b] *)
Definition xor (a b : Z) : Z := ToInt32 (Z.lxor (ToInt32 a) (ToInt32 b)).
(** [a & b] *)
Definition and (a b : Z) : Z := ToInt32 (Z.land (ToInt32 a) (ToInt32 b)).
(** [~a] *)
Definition not (a : Z) : Z := ToInt32 (Z.lnot (ToInt32 a)).
(** [a >>> n] *)
Definition ushr (a n : Z) : Z := Z.shiftr (ToUint32 a) (ToUint32 n mod 32).
(** [a >> n] *)
Definition shr (a n : Z) : Z := Z.shiftr (ToInt32 a) (ToUint32 n mod 32).
(** unary [-a] *)
Definition neg (a : Z) : Z := - a.

End Int32.

(** ** Bytes *)

Definition byte_to_Z (b : byte) : Z := Z.of_N (Byte.to_N b).

(** Storing a Number into a [Uint8Array] slot keeps it modulo 256. *)
Definition Uint8_store (x : Z) : byte :=
  match Byte.of_N (Z.to_N (x mod 256)) with
  | Some b => b
  | None => x00
  end.

(** [new Uint8Array(n)]: [n] zero bytes. *)
Definition Uint8Array_new (n : nat) : list byte := repeat x00 n.

(** ** [calculateCRC32] *)

(** The body of [for (let i = 0; i < 8; i++)]. *)
Definition crc_bit_step (crc : Z) : Z :=
  Int32.xor (Int32.ushr crc 1)
            (Int32.and 0xedb88320 (Int32.neg (Int32.and crc 1))).

(** The body of [for (const byte of data)]. *)
Definition crc_byte_step (crc : Z) (b : byte) : Z :=
  Nat.iter 8 crc_bit_step (Int32.xor crc (byte_to_Z b)).

Definition calculateCRC32 (data : list byte) : list byte :=
  let crc := fold_left crc_byte_step data 0xffffffff in
  let crc := Int32.ushr (Int32.not crc) 0 in
  [ Uint8_store (Int32.and (Int32.shr crc 24) 0xff);
    Uint8_store (Int32.and (Int32.shr crc 16) 0xff);
    Uint8_store (Int32.and (Int32.shr crc 8) 0xff);
    Uint8_store (Int32.and crc 0xff) ].

(** ** The reference CRC-32, from the words of the specification

    Reflected CRC-32 on an unsigned 32-bit register: polynomial
    [0xEDB88320], initial register [0xFFFFFFFF], input bytes taken
    least-significant bit first, final complement; serialised most
    significant byte first. *)
Module Reference.

Definition poly : Z := 0xEDB88320.

Definition shift_bit (reg : Z) : Z :=
  if Z.odd reg then Z.lxor (reg / 2) poly else reg / 2.

Definition feed_byte (reg : Z) (b : byte) : Z :=
  Nat.iter 8 shift_bit (Z.lxor reg (byte_to_Z b)).

Definition crc32 (data : list byte) : Z :=
  Z.lxor (fold_left feed_byte data 0xFFFFFFFF) 0xFFFFFFFF.

Definition big_endian32 (w : Z) : list byte :=
  [ Uint8_store (w / 2 ^ 24 mod 256);
    Uint8_store (w / 2 ^ 16 mod 256);
    Uint8_store (w / 2 ^ 8 mod 256);
    Uint8_store (w mod 256) ].

End Reference.

(** The ASCII bytes of a string, as [TextEncoder.encode] gives them for
    ASCII text. *)
Definition bytes_of_string (s : string) : list byte := list_byte_of_string s.

(** ** Text of integers *)

(** The digit characters of [Number.prototype.toString(radix)] and
    [BigInt.prototype.toString()]. *)
Definition digit_alphabet : string := "0123456789abcdefghijklmnopqrstuvwxyz".

Definition digit_char (d : Z) : ascii :=
  match String.get (Z.to_nat d) digit_alphabet with
  | Some c => c
  | None => "?"%char
  end.

(** Digits of a non-negative integer, most significant first; [fuel]
    bounds the number of digits written. *)
Fixpoint digits_loop (fuel : nat) (radix n : Z) (acc : string) : string :=
  match fuel with
  | O => acc
  | S fuel' =>
      let acc' := String (digit_char (n mod radix)) acc in
      if n / radix =? 0 then acc' else digits_loop fuel' radix (n / radix) acc'
  end.

(** One unit of fuel per binary digit of [n] is enough for every radix from
    2 to 36 (lemma [digits_value_digits]). *)
Definition digits (radix n : Z) : string :=
  digits_loop (S (Z.to_nat (Z.log2 n))) radix n "".

(** [n.toString()] of a bigint [n]. *)
Definition BigInt_toString (n : Z) : string :=
  if n <? 0 then String "-" (digits 10 (- n)) else digits 10 n.

(** [x.toString(16)] of a Number holding a non-negative integer. *)
Definition Number_toString16 (x : Z) : string := digits 16 x.

(** [s.slice(-n)]: the last [n] characters (all of [s] if it is shorter). *)
Definition slice_last (n : nat) (s : string) : string :=
  String.substring (String.length s - n) n s.

(** [s.padStart(target, "0")] *)
Definition padStart0 (target : Z) (s : string) : string :=
  string_of_list_ascii (repeat "0"%char (Z.to_nat target - String.length s)) +:+ s.

(** [s.replace(/0+$/, "")]: drop the maximal run of ["0"] at the end. *)
Fixpoint strip_trailing_zeros (s : string) : string :=
  match s with
  | EmptyString => EmptyString
  | String c rest =>
      match strip_trailing_zeros rest with
      | EmptyString => if Ascii.eqb c "0" then EmptyString else String c EmptyString
      | rest' => String c rest'
      end
  end.

(** ** [toHex] *)

(** [("00" + x.toString(16)).slice(-2)] *)
Definition hex_byte (b : byte) : string :=
  slice_last 2 ("00" +:+ Number_toString16 (byte_to_Z b)).

(** [Array.from(buffer).map(...).join("")] *)
Definition toHex (buffer : list byte) : string :=
  String.concat "" (map hex_byte buffer).

(** Lowercase hexadecimal text, from the words of the specification: two
    digits of [0-9a-f] per byte, high nibble first, no separators. *)
Module HexSpec.

Definition nibble_char (n : Z) : ascii :=
  if n <? 10 then ascii_of_nat (Z.to_nat (48 + n))
  else ascii_of_nat (Z.to_nat (97 + (n - 10))).

Fixpoint encode (bytes : list byte) : string :=
  match bytes with
  | [] => EmptyString
  | b :: rest =>
      String (nibble_char (byte_to_Z b / 16))
        (String (nibble_char (byte_to_Z b mod 16)) (encode rest))
  end.

Definition is_lower_hex (c : ascii) : bool :=
  let n := Z.of_nat (nat_of_ascii c) in
  ((48 <=? n) && (n <=? 57)) || ((97 <=? n) && (n <=? 102)).

End HexSpec.

(** The integers [from], ..., [from + count - 1]. *)
Definition Z_range (from : Z) (count : nat) : list Z :=
  map (fun k => from + Z.of_nat k) (seq 0 count).

(** ** SHA-224

    [crypto.subtle.digest("SHA-224", data)] is a primitive of the platform.
    The account identifier is stated against the function of FIPS 180-4,
    written out here so that identifiers can be computed. *)
Module SHA224.

Definition add32 (a b : Z) : Z := (a + b) mod 2 ^ 32.

Definition rotr (n x : Z) : Z :=
  Z.lor (Z.shiftr x n) (Z.shiftl x (32 - n) mod 2 ^ 32).

Definition Ch (x y z : Z) : Z :=
  Z.lxor (Z.land x y) (Z.land (Z.lxor x 0xFFFFFFFF) z).
Definition Maj (x y z : Z) : Z :=
  Z.lxor (Z.lxor (Z.land x y) (Z.land x z)) (Z.land y z).
Definition Sigma0 (x : Z) : Z := Z.lxor (Z.lxor (rotr 2 x) (rotr 13 x)) (rotr 22 x).
Definition Sigma1 (x : Z) : Z := Z.lxor (Z.lxor (rotr 6 x) (rotr 11 x)) (rotr 25 x).
Definition sigma0 (x : Z) : Z := Z.lxor (Z.lxor (rotr 7 x) (rotr 18 x)) (Z.shiftr x 3).
Definition sigma1 (x : Z) : Z := Z.lxor (Z.lxor (rotr 17 x) (rotr 19 x)) (Z.shiftr x 10).

(** The round constants: the first 32 bits of the fractional parts of the
    cube roots of the first 64 primes. *)
Definition is_prime (p : Z) : bool :=
  forallb (fun q => negb (p mod q =? 0) || (p <=? q)) (Z_range 2 16).

Definition primes64 : list Z := filter is_prime (Z_range 2 310).

(** The integer cube root of [n], one bit at a time from bit [bits - 1]. *)
Fixpoint cube_root (bits : nat) (n r : Z) : Z :=
  match bits with
  | O => r
  | S b =>
      let r' := r + 2 ^ Z.of_nat b in
      cube_root b n (if r' * r' * r' <=? n then r' else r)
  end.

Definition K : list Z :=
  Eval vm_compute in
    map (fun p => cube_root 36 (p * 2 ^ 96) 0 mod 2 ^ 32) primes64.

Record state : Type := State {
  h0 : Z; h1 : Z; h2 : Z; h3 : Z; h4 : Z; h5 : Z; h6 : Z; h7 : Z
}.

Definition initial : state :=
  State 0xc1059ed8 0x367cd507 0x3070dd17 0xf70e5939
        0xffc00b31 0x68581511 0x64f98fa7 0xbefa4fa4.

Definition be32 (w : Z) : list byte :=
  [ Uint8_store (w / 2 ^ 24); Uint8_store (w / 2 ^ 16);
    Uint8_store (w / 2 ^ 8); Uint8_store w ].

Definition be64 (w : Z) : list byte := be32 (w / 2 ^ 32) ++ be32 w.

(** Message, one bit set, zeros up to 56 modulo 64, bit length. *)
Definition pad (msg : list byte) : list byte :=
  let len := Z.of_nat (length msg) in
  msg ++ [x80] ++ repeat x00 (Z.to_nat ((55 - len) mod 64)) ++ be64 (8 * len).

Fixpoint words_of (n : nat) (bytes : list byte) : list Z :=
  match n, bytes with
  | S n', a :: b :: c :: d :: rest =>
      (((byte_to_Z a * 256 + byte_to_Z b) * 256 + byte_to_Z c) * 256 + byte_to_Z d)
        :: words_of n' rest
  | _, _ => []
  end.

(** The message schedule: [w] holds the words so far, oldest first. *)
Fixpoint schedule (n : nat) (w : list Z) : list Z :=
  match n with
  | O => w
  | S n' =>
      let t := length w in
      let at_ (k : nat) := nth (t - k) w 0 in
      schedule n'
        (w ++ [add32 (add32 (sigma1 (at_ 2%nat)) (at_ 7%nat))
                     (add32 (sigma0 (at_ 15%nat)) (at_ 16%nat))])
  end.

Definition round (s : state) (kw : Z * Z) : state :=
  let t1 := add32 (add32 (add32 (h7 s) (Sigma1 (h4 s)))
                         (add32 (Ch (h4 s) (h5 s) (h6 s)) (fst kw))) (snd kw) in
  let t2 := add32 (Sigma0 (h0 s)) (Maj (h0 s) (h1 s) (h2 s)) in
  State (add32 t1 t2) (h0 s) (h1 s) (h2 s) (add32 (h3 s) t1) (h4 s) (h5 s) (h6 s).

Definition compress (s : state) (block : list byte) : state :=
  let w := schedule 48 (words_of 16 block) in
  let r := fold_left round (combine K w) s in
  State (add32 (h0 s) (h0 r)) (add32 (h1 s) (h1 r)) (add32 (h2 s) (h2 r))
        (add32 (h3 s) (h3 r)) (add32 (h4 s) (h4 r)) (add32 (h5 s) (h5 r))
        (add32 (h6 s) (h6 r)) (add32 (h7 s) (h7 r)).

(** [n] blocks of 64 bytes. *)
Fixpoint absorb (n : nat) (s : state) (bytes : list byte) : state :=
  match n with
  | O => s
  | S n' => absorb n' (compress s (firstn 64 bytes)) (skipn 64 bytes)
  end.

Definition sha224 (msg : list byte) : list byte :=
  let padded := pad msg in
  let s := absorb (length padded / 64) initial padded in
  be32 (h0 s) ++ be32 (h1 s) ++ be32 (h2 s) ++ be32 (h3 s)
    ++ be32 (h4 s) ++ be32 (h5 s) ++ be32 (h6 s).

End SHA224.

(** ** [generateAccountId] *)

(** A [Principal], read only through [toUint8Array()]. *)
Record Principal : Type := { toUint8Array : list byte }.

(** The 11 bytes [0x0a] and ["account-id"]. *)
Definition padding : list byte := x0a :: bytes_of_string "account-id".

(** The buffer [data] of [generateAccountId]: the three [data.set] calls
    fill it with [padding], the principal's bytes and [sub], end to end. *)
Definition account_data (principal : Principal) (subaccount : option (list byte))
  : list byte :=
  let principalBytes := toUint8Array principal in
  let sub := match subaccount with
             | Some s => s
             | None => Uint8Array_new 32
             end in
  padding ++ principalBytes ++ sub.

(** [digest] stands for [crypto.subtle.digest("SHA-224", _)]; a rejection
    is caught and thrown again unchanged. *)
Definition generateAccountId (digest : list byte -> Completion (list byte))
    (principal : Principal) (subaccount : option (list byte)) : Completion string :=
  match digest (account_data principal subaccount) with
  | Normal hash =>
      let crc32 := calculateCRC32 hash in
      Normal (toHex (crc32 ++ hash))
  | Throws error => Throws error
  end.

(** The platform primitive when it behaves as SHA-224. *)
Definition subtle_digest_sha224 (data : list byte) : Completion (list byte) :=
  Normal (SHA224.sha224 data).

(** The record hashed for an account identifier, as the specification
    lays it out. *)
Definition account_record (holder : Principal) (sub : option (list byte)) : list byte :=
  [x0a] ++ bytes_of_string "account-id" ++ toUint8Array holder
    ++ match sub with Some bytes => bytes | None => repeat x00 32 end.

(** The anonymous principal: the single byte [0x04]. *)
Definition anonymous : Principal := {| toUint8Array := [x04] |}.

(** ** [formatBalance] *)

(** Numbers are IEEE 754 binary64 values. *)
Definition prec : Z := 53.
Definition emax : Z := 1024.

(** The Number nearest to the integer [n] (ties to even). *)
Definition Number_of_Z (n : Z) : spec_float := binary_normalize prec emax n 0 false.

(** [10 ** decimals] for an integral [decimals]. The language leaves the
    accuracy of [**] to the implementation; the model takes the correctly
    rounded result, the best any implementation can return (what does not
    depend on this choice is lemma [no_Number_is_pow10]). For a negative
    exponent the result lies strictly between 0 and 1. *)
Definition Number_pow10 (decimals : Z) : spec_float :=
  if decimals <? 0
  then SFdiv prec emax (Number_of_Z 1) (Number_of_Z (10 ^ (- decimals)))
  else Number_of_Z (10 ^ decimals).

(** [BigInt(x)] of a Number [x]: the integer [x] stands for, and a
    [RangeError] when [x] is not an integer ([None]). *)
Definition BigInt_of_Number (x : spec_float) : option Z :=
  match x with
  | S754_zero _ => Some 0
  | S754_finite sign m e =>
      let magnitude :=
        if 0 <=? e then Some (Z.pos m * 2 ^ e)
        else if Z.pos m mod 2 ^ (- e) =? 0 then Some (Z.pos m / 2 ^ (- e))
        else None in
      option_map (fun v => if sign then - v else v) magnitude
  | S754_infinity _ | S754_nan => None
  end.

Definition RangeError : Thrown := ErrorObject "RangeError".

Definition formatBalance (balance decimals : Z) : Completion string :=
  match BigInt_of_Number (Number_pow10 decimals) with
  | None => Throws RangeError
  | Some divisor =>
      if divisor =? 0 then Throws RangeError
      else
        let whole := Z.quot balance divisor in
        let fraction := Z.rem balance divisor in
        if fraction =? 0 then Normal (BigInt_toString whole)
        else
          let fractionStr :=
            strip_trailing_zeros (padStart0 decimals (BigInt_toString fraction)) in
          Normal (BigInt_toString whole +:+ "." +:+ fractionStr)
  end.

(** The formatter the specification describes: exact division by the
    integer [10 ^ decimals]. *)
Module FormatSpec.

Definition format (balance decimals : Z) : string :=
  let divisor := 10 ^ decimals in
  let whole := balance / divisor in
  let fraction := balance mod divisor in
  if fraction =? 0 then BigInt_toString whole
  else BigInt_toString whole +:+ "."
         +:+ strip_trailing_zeros (padStart0 decimals (BigInt_toString fraction)).

End FormatSpec.

(** ** The service object and its collaborators *)

(** An [HttpAgent] is only stored and handed on. *)
Record HttpAgent : Type := { agent_handle : nat }.

Record TokenInfo : Type := { name : string; symbol : string; decimals : Z }.

Record TokenBalanceService : Type := {
  agent : HttpAgent;
  tokenInfoCache : gmap string TokenInfo
}.

(** The argument of [icrc1_balance_of]; [subaccount] is the ledger's
    [opt vec nat8], an array of no or one byte array. *)
Record Account : Type := { owner : Principal; subaccount : list (list byte) }.

(** What [Actor.createActor] returns: a proxy bound to an agent and a
    canister. *)
Record Actor : Type := { actor_agent : HttpAgent; canisterId : string }.

(** The remote calls the service awaits. [icrc1_metadata] is the
    [Promise.all] of [icrc1_name()], [icrc1_symbol()] and
    [icrc1_decimals()] on one actor. *)
Inductive Request : Type :=
| icrc1_balance_of (actor : Actor) (account : Account)
| icrc1_metadata (actor : Actor).

(** ** Asynchronous methods

    An [async] method runs on the service object up to its first [await],
    where it is suspended with the request it waits for; its continuation
    runs later, on the service object as it is then. [T] is the type of
    the awaited value. *)
Inductive Step (T A : Type) : Type :=
| Finished (this : TokenBalanceService) (result : Completion A)
| Suspended (this : TokenBalanceService) (request : Request)
            (resume : Completion T -> TokenBalanceService -> Step T A).
Arguments Finished {T A} this result.
Arguments Suspended {T A} this request resume.

Definition Task (T A : Type) : Type := TokenBalanceService -> Step T A.

Fixpoint Step_bind {T A B : Type} (f : A -> Task T B) (m : Step T A) : Step T B :=
  match m with
  | Finished this (Normal a) => f a this
  | Finished this (Throws e) => Finished this (Throws e)
  | Suspended this request resume =>
      Suspended this request (fun settled this' => Step_bind f (resume settled this'))
  end.

(** [try { body } catch (error) { handler }] *)
Fixpoint Step_catch {T A : Type} (handler : Thrown -> Task T A) (m : Step T A)
  : Step T A :=
  match m with
  | Finished this (Normal a) => Finished this (Normal a)
  | Finished this (Throws e) => handler e this
  | Suspended this request resume =>
      Suspended this request
        (fun settled this' => Step_catch handler (resume settled this'))
  end.

#[export] Instance Task_ret {T : Type} : MRet (Task T) :=
  fun A a this => Finished this (Normal a).
#[export] Instance Task_bind {T : Type} : MBind (Task T) :=
  fun A B f m this => Step_bind f (m this).

Definition try_catch {T A : Type} (body : Task T A) (handler : Thrown -> Task T A)
  : Task T A :=
  fun this => Step_catch handler (body this).

(** A synchronous call that returns or throws. *)
Definition call {T A : Type} (c : Completion A) : Task T A :=
  fun this => Finished this c.

(** [await request] *)
Definition await {T : Type} (request : Request) : Task T T :=
  fun this => Suspended this request (fun settled this' => Finished this' settled).

Definition get_this {T : Type} : Task T TokenBalanceService :=
  fun this => Finished this (Normal this).

(** The service object after [this.tokenInfoCache.set(key, value)]. *)
Definition with_TokenInfo (key : string) (value : TokenInfo)
    (this : TokenBalanceService) : TokenBalanceService :=
  {| agent := agent this;
     tokenInfoCache := <[key := value]> (tokenInfoCache this) |}.

Definition tokenInfoCache_set {T : Type} (key : string) (value : TokenInfo)
  : Task T unit :=
  fun this => Finished (with_TokenInfo key value this) (Normal tt).

(** One call run to its end: every awaited request settles as [ledger]
    says, and while the call is suspended the rest of the program may
    change the service object ([others]). *)
Fixpoint complete {T A : Type} (ledger : Request -> Completion T)
    (others : TokenBalanceService -> TokenBalanceService) (st : Step T A)
  : TokenBalanceService * Completion A :=
  match st with
  | Finished this result => (this, result)
  | Suspended this request resume =>
      complete ledger others (resume (ledger request) (others this))
  end.

(** [t] occurs in [s]. *)
Definition occurs_in (t s : string) : Prop :=
  exists before after : string, s = before +:+ t +:+ after.

(** ** The constructor and [getNetworkConfig] *)

(** [import.meta.env.DFX_NETWORK || "ic"]: [undefined] and the empty
    string are the falsy values the variable can hold. *)
Definition network_or_ic (DFX_NETWORK : option string) : string :=
  match DFX_NETWORK with
  | None => "ic"
  | Some EmptyString => "ic"
  | Some s => s
  end.

(** What [new TokenBalanceService(agent)] yields: the object, and whether
    [agent.fetchRootKey()] was called. A rejection of that promise is
    handled by its [.catch] and reaches nobody. *)
Record Constructed : Type := {
  constructed : TokenBalanceService;
  fetchRootKey_called : bool
}.

Definition constructor (DFX_NETWORK : option string) (a : HttpAgent)
  : Completion Constructed :=
  let network := network_or_ic DFX_NETWORK in
  Normal {| constructed := {| agent := a; tokenInfoCache := ∅ |};
            fetchRootKey_called := String.eqb network "local" |}.

Record NetworkConfig : Type := { network : string; isLocal : bool; host : string }.

Definition double_quote : string := String (ascii_of_nat 34) EmptyString.

Definition invalid_network_message (network : string) : string :=
  "无效的 DFX_NETWORK 值: " +:+ network +:+ "，应为 "
    +:+ double_quote +:+ "local" +:+ double_quote +:+ " 或 "
    +:+ double_quote +:+ "ic" +:+ double_quote.

Definition getNetworkConfig (DFX_NETWORK : option string) : Completion NetworkConfig :=
  let network := network_or_ic DFX_NETWORK in
  if negb (existsb (String.eqb network) ["local"; "ic"]%string)
  then Throws (ErrorObject (invalid_network_message network))
  else
    let isLocal := String.eqb network "local" in
    let host := if isLocal then "http://localhost:4943" else "https://icp-api.io" in
    Normal {| network := network; isLocal := isLocal; host := host |}.

(** ** [queryTokenBalance] and [getTokenInfo] *)

Record BalanceResult : Type := { balance : option Z; error : option string }.

(** [error instanceof Error ? error.message : String(error)] *)
Definition errorMessage_of (error : Thrown) : string :=
  match error with
  | ErrorObject message => message
  | OtherValue asString => asString
  end.

Definition fallback_TokenInfo : TokenInfo :=
  {| name := "Unknown Token"; symbol := ""; decimals := 8 |}.

Section Methods.

(** [Actor.createActor(icrc1Idl, { agent, canisterId })], which returns
    the proxy or throws. *)
Variable createActor : HttpAgent -> string -> Completion Actor.

Definition queryTokenBalance (tokenCanisterId : string) (principal : Principal)
    (sub : option (list byte)) : Task Z BalanceResult :=
  try_catch
    (this ← get_this;
     actor ← call (createActor (agent this) tokenCanisterId);
     let account :=
       {| owner := principal;
          subaccount := match sub with Some s => [s] | None => [] end |} in
     balance ← await (icrc1_balance_of actor account);
     mret {| balance := Some balance; error := None |})
    (fun error =>
       let errorMessage := errorMessage_of error in
       mret {| balance := None;
               error := Some ("Failed to query " +:+ tokenCanisterId
                                +:+ " balance: " +:+ errorMessage) |}).

Definition getTokenInfo (tokenCanisterId : string)
  : Task (string * string * Z) TokenInfo :=
  try_catch
    (this ← get_this;
     match tokenInfoCache this !! tokenCanisterId with
     | Some cached => mret cached
     | None =>
         actor ← call (createActor (agent this) tokenCanisterId);
         '(name, symbol, decimals) ← await (icrc1_metadata actor);
         let tokenInfo := {| name := name; symbol := symbol; decimals := decimals |} in
         tokenInfoCache_set tokenCanisterId tokenInfo;;
         mret tokenInfo
     end)
    (fun error => mret fallback_TokenInfo).

(** *** The event loop

    Callers invoke [getTokenInfo]; awaited promises settle one at a time,
    in any order. [issued] records every request sent to a ledger. *)
Inductive Slot : Type :=
| Waiting (resume : Completion (string * string * Z) -> TokenBalanceService
                    -> Step (string * string * Z) TokenInfo)
| Returned (result : Completion TokenInfo).

Record Loop : Type := {
  service : TokenBalanceService;
  slots : list Slot;
  issued : list Request
}.

Inductive Event : Type :=
| Invoke (tokenCanisterId : string)
| Settle (caller : nat) (outcome : Completion (string * string * Z)).

Definition enter (st : Step (string * string * Z) TokenInfo) (l : Loop)
  : TokenBalanceService * Slot * list Request :=
  match st with
  | Finished this result => (this, Returned result, issued l)
  | Suspended this request resume => (this, Waiting resume, issued l ++ [request])
  end.

Definition step (l : Loop) (e : Event) : Loop :=
  match e with
  | Invoke tokenCanisterId =>
      let '(this, slot, log) := enter (getTokenInfo tokenCanisterId (service l)) l in
      {| service := this; slots := slots l ++ [slot]; issued := log |}
  | Settle caller outcome =>
      match slots l !! caller with
      | Some (Waiting resume) =>
          let '(this, slot, log) := enter (resume outcome (service l)) l in
          {| service := this; slots := <[caller := slot]> (slots l); issued := log |}
      | _ => l
      end
  end.

Definition run (events : list Event) (l : Loop) : Loop := fold_left step events l.

Definition start (this : TokenBalanceService) : Loop :=
  {| service := this; slots := []; issued := [] |}.

End Methods.

(** ** Vocabulary of the statements *)

(** The number a string of digits stands for in a radix. *)
Definition digit_of (c : ascii) : Z :=
  match String.index 0 (String c EmptyString) digit_alphabet with
  | Some i => Z.of_nat i
  | None => 0
  end.

Fixpoint digits_value (radix : Z) (s : string) : Z :=
  match s with
  | EmptyString => 0
  | String c rest =>
      digit_of c * radix ^ Z.of_nat (String.length rest) + digits_value radix rest
  end.

Definition is_decimal_digit (c : ascii) : bool :=
  let n := nat_of_ascii c in (48 <=? n)%nat && (n <=? 57)%nat.

Definition is_zero_char (c : ascii) : bool := Ascii.eqb c "0".

Definition all_chars (p : ascii -> bool) (s : string) : bool :=
  forallb p (list_ascii_of_string s).

Fixpoint count_char (c : ascii) (s : string) : nat :=
  match s with
  | EmptyString => 0
  | String x rest => (if Ascii.eqb x c then 1 else 0) + count_char c rest
  end.




(** The structured account [queryTokenBalance] sends to the ledger. *)
Definition ledger_account (holder : Principal) (sub : option (list byte)) : Account :=
  {| owner := holder;
     subaccount := match sub with Some s => [s] | None => [] end |}.

(** The result [queryTokenBalance] builds in its [catch] clause. *)
Definition failure_result (id : string) (e : Thrown) : BalanceResult :=
  {| balance := None;
     error := Some ("Failed to query " +:+ id +:+ " balance: " +:+ errorMessage_of e) |}.

(** Exactly one of the two fields is populated. *)
Definition one_field (r : BalanceResult) : Prop :=
  (is_Some (balance r) /\ error r = None) \/ (balance r = None /\ is_Some (error r)).

Definition TokenInfo_of (metadata : string * string * Z) : TokenInfo :=
  let '(n, s, d) := metadata in {| name := n; symbol := s; decimals := d |}.

(** What a caller of [getTokenInfo] receives when its own fetch settles
    with [outcome]. *)
Definition received (outcome : Completion (string * string * Z)) : TokenInfo :=
  match outcome with
  | Normal metadata => TokenInfo_of metadata
  | Throws _ => fallback_TokenInfo
  end.

(** What the settling of a fetch for [id] does to the service object. *)
Definition stored (id : string) (outcome : Completion (string * string * Z))
    (this : TokenBalanceService) : TokenBalanceService :=
  match outcome with
  | Normal metadata => with_TokenInfo id (TokenInfo_of metadata) this
  | Throws _ => this
  end.

(** The bigint [formatBalance] divides by. *)
Definition divisor_of (decimals : Z) : option Z :=
  BigInt_of_Number (Number_pow10 decimals).


Definition divisor_exact (d : Z) : bool :=
  match divisor_of d with
  | Some v => v =? 10 ^ d
  | None => false
  end.

(** ** A concrete world for examples *)

(** [TOKEN_CANISTER_IDS.ICP] *)
Definition ICP : string := "ryjl3-tyaaa-aaaaa-aaaba-cai".
(** [TOKEN_CANISTER_IDS.CKBTC] *)
Definition CKBTC : string := "mxzaz-hqaaa-aaaar-qaada-cai".

Definition ICP_metadata : string * string * Z := ("Internet Computer", "ICP", 8)%string.

Definition some_agent : HttpAgent := {| agent_handle := 0 |}.

(** A service object as the constructor leaves it. *)
Definition fresh_service : TokenBalanceService :=
  {| agent := some_agent; tokenInfoCache := ∅ |}.

(** [Actor.createActor] when it accepts every canister id. *)
Definition createActor_any (a : HttpAgent) (id : string) : Completion Actor :=
  Normal {| actor_agent := a; canisterId := id |}.

Definition ICP_actor : Actor := {| actor_agent := some_agent; canisterId := ICP |}.

Definition network_down : Thrown := ErrorObject "Failed to fetch".

(** ** The factory *)

(** [createTokenBalanceService(agent)]: [new TokenBalanceService(agent)]. *)
Definition createTokenBalanceService (DFX_NETWORK : option string) (a : HttpAgent)
  : Completion Constructed :=
  constructor DFX_NETWORK a.

(** ** Vocabulary for runs of the event loop *)

(** A continuation that does what the code after the [await] of
    [getTokenInfo] does, for the token [id]. *)
Definition continues_lookup (id : string)
    (resume : Completion (string * string * Z) -> TokenBalanceService
              -> Step (string * string * Z) TokenInfo) : Prop :=
  forall outcome this',
    resume outcome this' = Finished (stored id outcome this') (Normal (received outcome)).

Definition slot_ok (s : Slot) : Prop :=
  match s with
  | Waiting resume => exists id, continues_lookup id resume
  | Returned result => exists v, result = Normal v
  end.

Definition is_Invoke (e : Event) : bool :=
  match e with
  | Invoke _ => true
  | Settle _ _ => false
  end.

Fixpoint count_invokes (events : list Event) : nat :=
  match events with
  | [] => 0
  | e :: rest => (if is_Invoke e then 1 else 0) + count_invokes rest
  end.

(** ** Vocabulary for the formatter *)

Definition zeros (k : nat) : string := string_of_list_ascii (repeat "0"%char k).


(** ** Reading hexadecimal text back *)

Module HexRead.

Definition nibble_of (c : ascii) : option Z :=
  let n := Z.of_nat (nat_of_ascii c) in
  if (48 <=? n) && (n <=? 57) then Some (n - 48)
  else if (97 <=? n) && (n <=? 102) then Some (n - 87)
  else None.

Fixpoint decode (s : string) : option (list byte) :=
  match s with
  | EmptyString => Some []
  | String _ EmptyString => None
  | String hi (String lo rest) =>
      match nibble_of hi, nibble_of lo, decode rest with
      | Some h, Some l, Some bytes => Some (Uint8_store (16 * h + l) :: bytes)
      | _, _, _ => None
      end
  end.

End HexRead.

(** ** Vocabulary for repeated lookups and for requests *)

(** [n] lookups of [id] one after the other, each awaited before the next
    begins and each failing with [e]; [first] is the slot of the first. *)
Fixpoint failing_lookups (id : string) (e : Thrown) (first n : nat) : list Event :=
  match n with
  | O => []
  | S n' => Invoke id :: Settle first (Throws e) :: failing_lookups id e (S first) n'
  end.

(** The requests one call sends on its way to its end. *)
Fixpoint requests_of {T A : Type} (ledger : Request -> Completion T)
    (others : TokenBalanceService -> TokenBalanceService) (st : Step T A)
  : list Request :=
  match st with
  | Finished _ _ => []
  | Suspended this request resume =>
      request :: requests_of ledger others (resume (ledger request) (others this))
  end.

(* ===================================================================== *)
(** * Part II: properties                                                 *)
(* ===================================================================== *)

(** ** Facts on the 32-bit operators *)

Section Int32Facts.
Import Int32.

Lemma ToInt32_shift (x : Z) : exists k, ToInt32 x = x + 2 ^ 32 * k.
Proof.
  exists (- ((x + 2 ^ 31) / 2 ^ 32)). unfold ToInt32.
  rewrite Z.mod_eq by lia. lia.
Qed.

Lemma ToUint32_range (x : Z) : 0 <= ToUint32 x < 2 ^ 32.
Proof. unfold ToUint32. apply Z.mod_pos_bound. lia. Qed.

Lemma ToUint32_small (x : Z) : 0 <= x < 2 ^ 32 -> ToUint32 x = x.
Proof. intros H. unfold ToUint32. apply Z.mod_small. exact H. Qed.

Lemma ToUint32_ToInt32 (x : Z) : ToUint32 (ToInt32 x) = ToUint32 x.
Proof.
  destruct (ToInt32_shift x) as [k ->]. unfold ToUint32.
  rewrite (Z.mul_comm (2 ^ 32) k). apply Z.mod_add. lia.
Qed.

Lemma ToInt32_small (x : Z) : - 2 ^ 31 <= x < 2 ^ 31 -> ToInt32 x = x.
Proof. intros H. unfold ToInt32. rewrite Z.mod_small; lia. Qed.

Lemma ToInt32_range (x : Z) : - 2 ^ 31 <= ToInt32 x < 2 ^ 31.
Proof.
  unfold ToInt32. pose proof (Z.mod_pos_bound (x + 2 ^ 31) (2 ^ 32)). lia.
Qed.

Lemma ToInt32_idem (x : Z) : ToInt32 (ToInt32 x) = ToInt32 x.
Proof. apply ToInt32_small, ToInt32_range. Qed.

Lemma ToUint32_land_ones (x : Z) : ToUint32 x = Z.land x (Z.ones 32).
Proof. unfold ToUint32. rewrite Z.land_ones; lia. Qed.

Lemma ToUint32_lxor (a b : Z) :
  ToUint32 (Z.lxor a b) = Z.lxor (ToUint32 a) (ToUint32 b).
Proof.
  rewrite !ToUint32_land_ones. apply Z.bits_inj'. intros n Hn.
  rewrite Z.lxor_spec, !Z.land_spec, Z.lxor_spec.
  destruct (Z.testbit (Z.ones 32) n), (Z.testbit a n), (Z.testbit b n);
    reflexivity.
Qed.

Lemma ToUint32_land (a b : Z) :
  ToUint32 (Z.land a b) = Z.land (ToUint32 a) (ToUint32 b).
Proof.
  rewrite !ToUint32_land_ones. apply Z.bits_inj'. intros n Hn.
  rewrite !Z.land_spec.
  destruct (Z.testbit (Z.ones 32) n), (Z.testbit a n), (Z.testbit b n);
    reflexivity.
Qed.

Lemma ToUint32_lnot (a : Z) :
  ToUint32 (Z.lnot a) = Z.lxor (ToUint32 a) 0xFFFFFFFF.
Proof.
  change 0xFFFFFFFF with (Z.ones 32).
  rewrite !ToUint32_land_ones. apply Z.bits_inj'. intros n Hn.
  rewrite Z.lxor_spec, !Z.land_spec, Z.lnot_spec by exact Hn.
  destruct (Z.testbit (Z.ones 32) n), (Z.testbit a n); reflexivity.
Qed.

Lemma uint32_xor (a b : Z) :
  ToUint32 (xor a b) = Z.lxor (ToUint32 a) (ToUint32 b).
Proof.
  unfold xor. now rewrite ToUint32_ToInt32, ToUint32_lxor, !ToUint32_ToInt32.
Qed.

Lemma uint32_and (a b : Z) :
  ToUint32 (and a b) = Z.land (ToUint32 a) (ToUint32 b).
Proof.
  unfold and. now rewrite ToUint32_ToInt32, ToUint32_land, !ToUint32_ToInt32.
Qed.

Lemma uint32_not (a : Z) :
  ToUint32 (not a) = Z.lxor (ToUint32 a) 0xFFFFFFFF.
Proof.
  unfold not. now rewrite ToUint32_ToInt32, ToUint32_lnot, ToUint32_ToInt32.
Qed.

Lemma ushr_1 (a : Z) : ushr a 1 = ToUint32 a / 2.
Proof.
  unfold ushr. change (ToUint32 1 mod 32) with 1.
  rewrite Z.shiftr_div_pow2 by lia. reflexivity.
Qed.

Lemma ushr_0 (a : Z) : ushr a 0 = ToUint32 a.
Proof. unfold ushr. change (ToUint32 0 mod 32) with 0. apply Z.shiftr_0_r. Qed.

(** The lowest bit, as [crc & 1] reads it. *)
Lemma and_1 (a : Z) : and a 1 = if Z.odd (ToUint32 a) then 1 else 0.
Proof.
  unfold and. change (ToInt32 1) with 1. change 1 with (Z.ones 1) at 1.
  rewrite Z.land_ones by lia. change (2 ^ 1) with 2.
  assert (E : ToInt32 a mod 2 = ToUint32 a mod 2).
  { destruct (ToInt32_shift a) as [k ->]. unfold ToUint32.
    rewrite (Z.mod_eq a (2 ^ 32)) by lia.
    replace (a + 2 ^ 32 * k) with (a + (2 ^ 31 * k) * 2) by lia.
    replace (a - 2 ^ 32 * (a / 2 ^ 32))
      with (a + (- 2 ^ 31 * (a / 2 ^ 32)) * 2) by lia.
    now rewrite !Z.mod_add by lia. }
  rewrite E, Zmod_odd. destruct (Z.odd (ToUint32 a)); reflexivity.
Qed.

(** [(w >> n) & 0xff] stored in a byte array is byte [n / 8] of [w]. *)
Lemma store_shr_and (w n : Z) :
  0 <= n <= 24 ->
  Uint8_store (and (shr w n) 0xff) = Uint8_store (w / 2 ^ n mod 256).
Proof.
  intros Hn. unfold Uint8_store. do 2 f_equal. f_equal.
  rewrite Z.mod_mod by lia.
  unfold and, shr. change (ToInt32 255) with (Z.ones 8).
  rewrite (Z.mod_small (ToUint32 n)) by (unfold ToUint32; rewrite Z.mod_small; lia).
  rewrite ToUint32_small by lia.
  rewrite Z.land_ones by lia. change (2 ^ 8) with 256.
  rewrite ToInt32_small by (pose proof (Z.mod_pos_bound (ToInt32 (Z.shiftr (ToInt32 w) n)) 256); lia).
  rewrite Z.mod_mod by lia.
  destruct (ToInt32_shift (Z.shiftr (ToInt32 w) n)) as [k ->].
  replace (2 ^ 32 * k) with ((2 ^ 24 * k) * 256) by lia.
  rewrite Z.mod_add by lia.
  rewrite Z.shiftr_div_pow2 by lia.
  destruct (ToInt32_shift w) as [j ->].
  replace (2 ^ 32) with (2 ^ (32 - n) * 2 ^ n)
    by (rewrite <- Z.pow_add_r by lia; f_equal; lia).
  replace (w + 2 ^ (32 - n) * 2 ^ n * j) with (w + (2 ^ (32 - n) * j) * 2 ^ n) by lia.
  rewrite Z.div_add by lia.
  replace (2 ^ (32 - n)) with (2 ^ (24 - n) * 2 ^ 8)
    by (rewrite <- Z.pow_add_r by lia; f_equal; lia).
  change (2 ^ 8) with 256.
  replace (2 ^ (24 - n) * 256 * j) with ((2 ^ (24 - n) * j) * 256) by lia.
  now rewrite Z.mod_add by lia.
Qed.

End Int32Facts.

(** ** [calculateCRC32] against the reference CRC-32 *)

Section CrcRefinement.
Import Int32.

Lemma byte_to_Z_range (b : byte) : 0 <= byte_to_Z b < 256.
Proof.
  unfold byte_to_Z. pose proof (Byte.to_N_bounded b) as H. lia.
Qed.

Lemma crc_bit_step_ref (crc : Z) :
  ToUint32 (crc_bit_step crc) = Reference.shift_bit (ToUint32 crc).
Proof.
  unfold crc_bit_step, Reference.shift_bit.
  rewrite uint32_xor, uint32_and, ushr_1, and_1.
  pose proof (ToUint32_range crc) as Hr.
  rewrite (ToUint32_small (ToUint32 crc / 2))
    by (split; [apply Z.div_pos; lia | apply Z.div_lt_upper_bound; lia]).
  destruct (Z.odd (ToUint32 crc)); unfold neg; cbn [Z.opp].
  - change (ToUint32 (-1)) with 0xFFFFFFFF.
    change (ToUint32 0xedb88320) with Reference.poly.
    reflexivity.
  - change (ToUint32 0) with 0. rewrite Z.land_0_r. apply Z.lxor_0_r.
Qed.

Lemma crc_bit_steps_ref (n : nat) (crc : Z) :
  ToUint32 (Nat.iter n crc_bit_step crc)
  = Nat.iter n Reference.shift_bit (ToUint32 crc).
Proof.
  induction n as [|n IH]; [reflexivity|].
  now rewrite !Nat.iter_succ, crc_bit_step_ref, IH.
Qed.

Lemma crc_byte_step_ref (crc : Z) (b : byte) :
  ToUint32 (crc_byte_step crc b) = Reference.feed_byte (ToUint32 crc) b.
Proof.
  unfold crc_byte_step, Reference.feed_byte.
  rewrite crc_bit_steps_ref, uint32_xor.
  rewrite (ToUint32_small (byte_to_Z b))
    by (pose proof (byte_to_Z_range b); lia).
  reflexivity.
Qed.

Lemma fold_left_cons {A B : Type} (f : A -> B -> A) (x : B) (l : list B) (a : A) :
  fold_left f (x :: l) a = fold_left f l (f a x).
Proof. reflexivity. Qed.

Lemma crc_fold_ref (data : list byte) (crc : Z) :
  ToUint32 (fold_left crc_byte_step data crc)
  = fold_left Reference.feed_byte data (ToUint32 crc).
Proof.
  revert crc. induction data as [|b data IH]; intros crc.
  - reflexivity.
  - now rewrite !fold_left_cons, IH, crc_byte_step_ref.
Qed.

(** The register after the complement and [>>> 0]. *)
Lemma crc_register_ref (data : list byte) :
  ushr (not (fold_left crc_byte_step data 0xffffffff)) 0
  = Reference.crc32 data.
Proof.
  rewrite ushr_0, uint32_not, crc_fold_ref.
  rewrite (ToUint32_small 0xffffffff) by lia. reflexivity.
Qed.

Lemma crc32_range (data : list byte) : 0 <= Reference.crc32 data < 2 ^ 32.
Proof. rewrite <- crc_register_ref, ushr_0. apply ToUint32_range. Qed.

(** The refinement: the code computes the reference, byte for byte. The
    other statements about the checksum rest on this lemma. *)
Lemma calculateCRC32_reference (data : list byte) :
  calculateCRC32 data = Reference.big_endian32 (Reference.crc32 data).
Proof.
  unfold calculateCRC32. cbv zeta. rewrite crc_register_ref.
  unfold Reference.big_endian32.
  rewrite !store_shr_and by lia.
  replace (and (Reference.crc32 data) 255)
    with (and (shr (Reference.crc32 data) 0) 255).
  - rewrite store_shr_and by lia. change (2 ^ 0) with 1.
    now rewrite Z.div_1_r.
  - unfold shr. change (ToUint32 0 mod 32) with 0.
    rewrite Z.shiftr_0_r. unfold and. now rewrite ToInt32_idem.
Qed.

End CrcRefinement.

(** ** [toHex] against the lowercase hexadecimal encoding *)

Section Hex.

Lemma hex_byte_nibbles (b : byte) :
  hex_byte b
  = String (HexSpec.nibble_char (byte_to_Z b / 16))
      (String (HexSpec.nibble_char (byte_to_Z b mod 16)) EmptyString).
Proof. destruct b; vm_compute; reflexivity. Qed.

Lemma hex_byte_lower (b : byte) :
  forallb HexSpec.is_lower_hex (list_ascii_of_string (hex_byte b)) = true.
Proof. destruct b; vm_compute; reflexivity. Qed.

Lemma append_cons (c : ascii) (s t : string) :
  String c s +:+ t = String c (s +:+ t).
Proof. reflexivity. Qed.

Lemma append_empty_l (t : string) : EmptyString +:+ t = t.
Proof. reflexivity. Qed.

Lemma append_empty_r (s : string) : s +:+ EmptyString = s.
Proof.
  induction s as [|c s IH]; [reflexivity|]. now rewrite append_cons, IH.
Qed.

Lemma toHex_cons (b : byte) (l : list byte) :
  toHex (b :: l) = hex_byte b +:+ toHex l.
Proof.
  unfold toHex. destruct l as [|b' l]; cbn [map String.concat].
  - now rewrite append_empty_r.
  - reflexivity.
Qed.

Lemma toHex_encode (l : list byte) : toHex l = HexSpec.encode l.
Proof.
  induction l as [|b l IH]; [reflexivity|].
  rewrite toHex_cons, IH, hex_byte_nibbles. reflexivity.
Qed.

Lemma encode_length (l : list byte) :
  String.length (HexSpec.encode l) = (2 * length l)%nat.
Proof.
  induction l as [|b l IH]; [reflexivity|].
  cbn [HexSpec.encode String.length length]. rewrite IH. lia.
Qed.

Lemma list_ascii_of_append (s t : string) :
  list_ascii_of_string (s +:+ t) = list_ascii_of_string s ++ list_ascii_of_string t.
Proof.
  induction s as [|c s IH]; [reflexivity|].
  rewrite append_cons. cbn [list_ascii_of_string]. now rewrite IH.
Qed.

Lemma toHex_lower (l : list byte) :
  forallb HexSpec.is_lower_hex (list_ascii_of_string (toHex l)) = true.
Proof.
  induction l as [|b l IH]; [reflexivity|].
  rewrite toHex_cons, list_ascii_of_append, forallb_app, hex_byte_lower, IH.
  reflexivity.
Qed.

End Hex.

(** ** The digest has 28 bytes *)


(** ** Claims on the checksum and the account identifier *)

(** C3. For every byte sequence, [calculateCRC32] returns four bytes, the
    big-endian serialisation of the reflected CRC-32 (polynomial
    0xEDB88320, initial register 0xFFFFFFFF, final complement) of the
    sequence; on the ASCII bytes of "123456789" these are CB F4 39 26. *)
Theorem calculateCRC32_standard :
  (forall b : list byte,
      calculateCRC32 b = Reference.big_endian32 (Reference.crc32 b)
      /\ length (calculateCRC32 b) = 4%nat
      /\ 0 <= Reference.crc32 b < 2 ^ 32)
  /\ calculateCRC32 (bytes_of_string "123456789") = [xcb; xf4; x39; x26]
  /\ Reference.crc32 (bytes_of_string "123456789") = 0xCBF43926.
Proof.
  split; [|split; vm_compute; reflexivity].
  intros b. split; [apply calculateCRC32_reference|].
  split; [reflexivity | apply crc32_range].
Qed.



(** A rejected digest is thrown again unchanged. *)
Lemma generateAccountId_rethrows
    (digest : list byte -> Completion (list byte))
    (holder : Principal) (sub : option (list byte)) (e : Thrown) :
  digest (account_data holder sub) = Throws e ->
  generateAccountId digest holder sub = Throws e.
Proof. intros H. unfold generateAccountId. now rewrite H. Qed.

(** C6. Without a subaccount, [generateAccountId] returns what it returns
    for a subaccount of 32 zero bytes: in both cases the bytes hashed are
    the 11 bytes of the separator, the principal's bytes and 32 zero
    bytes. *)
Theorem generateAccountId_default_subaccount
    (digest : list byte -> Completion (list byte)) (holder : Principal) :
  generateAccountId digest holder None
  = generateAccountId digest holder (Some (repeat x00 32))
  /\ account_data holder None = account_record holder (Some (repeat x00 32))
  /\ length (account_data holder None)
     = (11 + length (toUint8Array holder) + 32)%nat.
Proof.
  split; [reflexivity|]. split; [reflexivity|].
  unfold account_data, Uint8Array_new. rewrite !length_app, repeat_length.
  change (length padding) with 11%nat. lia.
Qed.

(** ** The asynchronous methods, step by step *)

Section MethodFacts.

Variable createActor : HttpAgent -> string -> Completion Actor.

Lemma getTokenInfo_hit (id : string) (this : TokenBalanceService) (v : TokenInfo) :
  tokenInfoCache this !! id = Some v ->
  getTokenInfo createActor id this = Finished this (Normal v).
Proof.
  intros H. unfold getTokenInfo, try_catch, mbind, Task_bind, get_this.
  cbn [Step_bind]. rewrite H. reflexivity.
Qed.

Lemma getTokenInfo_no_actor (id : string) (this : TokenBalanceService) (e : Thrown) :
  tokenInfoCache this !! id = None ->
  createActor (agent this) id = Throws e ->
  getTokenInfo createActor id this = Finished this (Normal fallback_TokenInfo).
Proof.
  intros H He. unfold getTokenInfo, try_catch, mbind, Task_bind, get_this.
  cbn [Step_bind]. rewrite H. unfold call. rewrite He. reflexivity.
Qed.

(** On a miss the method is suspended on the metadata request; what its
    continuation does depends only on how the request settles. *)
Lemma getTokenInfo_miss (id : string) (this : TokenBalanceService) (actor : Actor) :
  tokenInfoCache this !! id = None ->
  createActor (agent this) id = Normal actor ->
  exists resume,
    getTokenInfo createActor id this = Suspended this (icrc1_metadata actor) resume
    /\ (forall n s d this',
           resume (Normal (n, s, d)) this'
           = Finished (with_TokenInfo id {| name := n; symbol := s; decimals := d |} this')
                      (Normal {| name := n; symbol := s; decimals := d |}))
    /\ (forall e this',
           resume (Throws e) this' = Finished this' (Normal fallback_TokenInfo)).
Proof.
  intros H Ha. unfold getTokenInfo, try_catch, mbind, Task_bind, get_this.
  cbn [Step_bind]. rewrite H. unfold call. rewrite Ha.
  cbn [Step_bind]. unfold await. cbn [Step_bind Step_catch].
  eexists. split; [reflexivity|]. split; reflexivity.
Qed.

Lemma queryTokenBalance_no_actor (id : string) (holder : Principal)
    (sub : option (list byte)) (this : TokenBalanceService) (e : Thrown) :
  createActor (agent this) id = Throws e ->
  queryTokenBalance createActor id holder sub this
  = Finished this (Normal (failure_result id e)).
Proof.
  intros He. unfold queryTokenBalance, try_catch, mbind, Task_bind, get_this.
  cbn [Step_bind]. unfold call. rewrite He. reflexivity.
Qed.

Lemma queryTokenBalance_actor (id : string) (holder : Principal)
    (sub : option (list byte)) (this : TokenBalanceService) (actor : Actor) :
  createActor (agent this) id = Normal actor ->
  exists resume,
    queryTokenBalance createActor id holder sub this
    = Suspended this (icrc1_balance_of actor (ledger_account holder sub)) resume
    /\ (forall b this',
           resume (Normal b) this'
           = Finished this' (Normal {| balance := Some b; error := None |}))
    /\ (forall e this',
           resume (Throws e) this' = Finished this' (Normal (failure_result id e))).
Proof.
  intros Ha. unfold queryTokenBalance, try_catch, mbind, Task_bind, get_this.
  cbn [Step_bind]. unfold call. rewrite Ha.
  cbn [Step_bind]. unfold await. cbn [Step_bind Step_catch].
  eexists. split; [reflexivity|]. split; reflexivity.
Qed.

(** The result of a whole call, whatever the ledger does. *)
Lemma queryTokenBalance_complete (id : string) (holder : Principal)
    (sub : option (list byte)) (this : TokenBalanceService)
    (ledger : Request -> Completion Z)
    (others : TokenBalanceService -> TokenBalanceService) :
  snd (complete ledger others (queryTokenBalance createActor id holder sub this))
  = Normal
      match createActor (agent this) id with
      | Throws e => failure_result id e
      | Normal actor =>
          match ledger (icrc1_balance_of actor (ledger_account holder sub)) with
          | Normal b => {| balance := Some b; error := None |}
          | Throws e => failure_result id e
          end
      end.
Proof.
  destruct (createActor (agent this) id) as [actor|e] eqn:Ha.
  - destruct (queryTokenBalance_actor id holder sub this actor Ha)
      as (resume & -> & Hok & Hfail).
    cbn [complete].
    destruct (ledger _) as [b|e]; [rewrite Hok | rewrite Hfail]; reflexivity.
  - now rewrite (queryTokenBalance_no_actor id holder sub this e Ha).
Qed.

End MethodFacts.

(** ** Claims on [queryTokenBalance] *)

Lemma occurs_in_middle (a t b : string) : occurs_in t (a +:+ t +:+ b).
Proof. exists a, b. reflexivity. Qed.





(** C10. Every call of [queryTokenBalance] returns, and returns an object
    with exactly one field populated: [balance], holding the integer the
    ledger returned, or [error], holding a string. *)
Theorem queryTokenBalance_one_field
    (createActor : HttpAgent -> string -> Completion Actor)
    (id : string) (holder : Principal) (sub : option (list byte))
    (this : TokenBalanceService) (ledger : Request -> Completion Z)
    (others : TokenBalanceService -> TokenBalanceService) :
  exists r : BalanceResult,
    snd (complete ledger others (queryTokenBalance createActor id holder sub this))
    = Normal r
    /\ one_field r
    /\ ((exists (actor : Actor) (b : Z),
            createActor (agent this) id = Normal actor
            /\ ledger (icrc1_balance_of actor (ledger_account holder sub)) = Normal b
            /\ r = {| balance := Some b; error := None |})
        \/ (exists message : string, r = {| balance := None; error := Some message |})).
Proof.
  eexists. split; [apply queryTokenBalance_complete|].
  destruct (createActor (agent this) id) as [actor|e].
  - destruct (ledger _) as [b|e] eqn:Hb.
    + split; [left; split; [eexists|]; reflexivity|].
      left. exists actor, b. repeat split; assumption.
    + split; [right; split; [|eexists]; reflexivity|].
      right. eexists. reflexivity.
  - split; [right; split; [|eexists]; reflexivity|].
    right. eexists. reflexivity.
Qed.

(** ** Claims on [getTokenInfo] *)

Section CacheClaims.

Variable createActor : HttpAgent -> string -> Completion Actor.

Lemma run_cons (e : Event) (events : list Event) (l : Loop) :
  run createActor (e :: events) l = run createActor events (step createActor l e).
Proof. reflexivity. Qed.

Lemma run_nil (l : Loop) : run createActor [] l = l.
Proof. reflexivity. Qed.

(** What settling a waiting fetch of [getTokenInfo] yields. *)
Lemma resume_settled (id : string) (this : TokenBalanceService) (actor : Actor)
    (resume : Completion (string * string * Z) -> TokenBalanceService
              -> Step (string * string * Z) TokenInfo) :
  (forall n s d this',
      resume (Normal (n, s, d)) this'
      = Finished (with_TokenInfo id {| name := n; symbol := s; decimals := d |} this')
                 (Normal {| name := n; symbol := s; decimals := d |})) ->
  (forall e this', resume (Throws e) this' = Finished this' (Normal fallback_TokenInfo)) ->
  forall outcome this',
    resume outcome this' = Finished (stored id outcome this') (Normal (received outcome)).
Proof.
  intros Hok Hfail [[[n s] d]|e] this'; [apply Hok | apply Hfail].
Qed.


(** A caller that misses joins the loop as a waiting slot, and one more
    request is on its way. *)
Lemma step_invoke_miss (l : Loop) (id : string) (actor : Actor) :
  tokenInfoCache (service l) !! id = None ->
  createActor (agent (service l)) id = Normal actor ->
  exists resume,
    step createActor l (Invoke id)
    = {| service := service l;
         slots := slots l ++ [Waiting resume];
         issued := issued l ++ [icrc1_metadata actor] |}
    /\ (forall outcome this',
           resume outcome this'
           = Finished (stored id outcome this') (Normal (received outcome))).
Proof.
  intros Hmiss Hactor.
  destruct (getTokenInfo_miss createActor id (service l) actor Hmiss Hactor)
    as (resume & Hstart & Hok & Hfail).
  exists resume. split.
  - unfold step. rewrite Hstart. reflexivity.
  - apply (resume_settled id (service l) actor resume Hok Hfail).
Qed.

Lemma step_invoke_hit (l : Loop) (id : string) (v : TokenInfo) :
  tokenInfoCache (service l) !! id = Some v ->
  step createActor l (Invoke id)
  = {| service := service l;
       slots := slots l ++ [Returned (Normal v)];
       issued := issued l |}.
Proof.
  intros Hhit. unfold step.
  rewrite (getTokenInfo_hit createActor id (service l) v Hhit). reflexivity.
Qed.

Lemma step_settle (l : Loop) (caller : nat) (id : string)
    (outcome : Completion (string * string * Z))
    (resume : Completion (string * string * Z) -> TokenBalanceService
              -> Step (string * string * Z) TokenInfo) :
  slots l !! caller = Some (Waiting resume) ->
  (forall outcome this',
      resume outcome this'
      = Finished (stored id outcome this') (Normal (received outcome))) ->
  step createActor l (Settle caller outcome)
  = {| service := stored id outcome (service l);
       slots := <[caller := Returned (Normal (received outcome))]> (slots l);
       issued := issued l |}.
Proof.
  intros Hslot Hresume. unfold step. rewrite Hslot, Hresume. reflexivity.
Qed.



End CacheClaims.




(** A cache hit returns the stored value and sends nothing. *)
Lemma getTokenInfo_hit_no_fetch
    (createActor : HttpAgent -> string -> Completion Actor)
    (l : Loop) (id : string) (v : TokenInfo) :
  tokenInfoCache (service l) !! id = Some v ->
  issued (step createActor l (Invoke id)) = issued l.
Proof. intros H. now rewrite (step_invoke_hit createActor l id v H). Qed.

(** ** Claim on the network selector *)

(** The constructor never throws. *)
Lemma constructor_total (DFX_NETWORK : option string) (a : HttpAgent) :
  exists c : Constructed, constructor DFX_NETWORK a = Normal c.
Proof. eexists. reflexivity. Qed.

(** C9 at the selector "testnet": the constructor returns a service object
    (without asking for the root key) where the claim has it fail;
    [getNetworkConfig], which holds the check, throws for the same
    selector but the constructor does not call it. *)
Theorem constructor_accepts_unsupported_network (a : HttpAgent) :
  constructor (Some "testnet"%string) a
  = Normal {| constructed := {| agent := a; tokenInfoCache := ∅ |};
              fetchRootKey_called := false |}
  /\ getNetworkConfig (Some "testnet"%string)
     = Throws (ErrorObject (invalid_network_message "testnet")).
Proof. split; reflexivity. Qed.


(** ** Text of integers *)

Section Digits.

Lemma digit_of_digit_char (k : Z) : 0 <= k < 36 -> digit_of (digit_char k) = k.
Proof.
  intros Hk. rewrite <- (Z2Nat.id k) at 2 by lia.
  unfold digit_char.
  assert (Hn : (Z.to_nat k < 36)%nat) by lia.
  revert Hn. generalize (Z.to_nat k) as n. intros n Hn.
  do 36 (destruct n as [|n]; [reflexivity|]). lia.
Qed.

Lemma digit_char_decimal (k : Z) :
  0 <= k < 10 -> is_decimal_digit (digit_char k) = true.
Proof.
  intros Hk. unfold digit_char.
  assert (Hn : (Z.to_nat k < 10)%nat) by lia.
  revert Hn. generalize (Z.to_nat k) as n. intros n Hn.
  do 10 (destruct n as [|n]; [reflexivity|]). lia.
Qed.

Lemma digits_loop_step (fuel : nat) (radix n : Z) (acc : string) :
  digits_loop (S fuel) radix n acc
  = if n / radix =? 0 then String (digit_char (n mod radix)) acc
    else digits_loop fuel radix (n / radix) (String (digit_char (n mod radix)) acc).
Proof. reflexivity. Qed.

(** With enough fuel the digits written stand for the number. *)
Lemma digits_loop_value (radix : Z) (fuel : nat) :
  2 <= radix <= 36 ->
  forall (n : Z) (acc : string),
    0 <= n < radix ^ Z.of_nat fuel ->
    digits_value radix (digits_loop fuel radix n acc)
    = n * radix ^ Z.of_nat (String.length acc) + digits_value radix acc.
Proof.
  intros Hr. induction fuel as [|fuel IH]; intros n acc Hn.
  - change (radix ^ Z.of_nat 0) with 1 in Hn.
    assert (n = 0) as -> by lia. cbn [digits_loop]. lia.
  - rewrite digits_loop_step.
    pose proof (Z.mod_pos_bound n radix ltac:(lia)) as Hm.
    pose proof (Z.div_mod n radix ltac:(lia)) as Hdm.
    destruct (n / radix =? 0) eqn:Hq.
    + apply Z.eqb_eq in Hq.
      cbn [digits_value]. rewrite digit_of_digit_char by lia. nia.
    + apply Z.eqb_neq in Hq.
      rewrite IH.
      * cbn [digits_value String.length].
        rewrite digit_of_digit_char by lia.
        rewrite Nat2Z.inj_succ, Z.pow_succ_r by lia. nia.
      * rewrite Nat2Z.inj_succ, Z.pow_succ_r in Hn by lia.
        split; [apply Z.div_pos; lia | apply Z.div_lt_upper_bound; lia].
Qed.

Lemma log2_fuel (radix n : Z) :
  2 <= radix -> 0 <= n -> n < radix ^ Z.of_nat (S (Z.to_nat (Z.log2 n))).
Proof.
  intros Hr Hn.
  rewrite Nat2Z.inj_succ, Z2Nat.id by apply Z.log2_nonneg.
  destruct (Z.eq_dec n 0) as [-> | Hnz].
  - apply Z.pow_pos_nonneg; [lia | cbn; lia].
  - pose proof (Z.log2_spec n ltac:(lia)) as [_ Hup].
    eapply Z.lt_le_trans; [exact Hup|].
    apply Z.pow_le_mono_l. pose proof (Z.log2_nonneg n). lia.
Qed.

(** [digits] has fuel enough: reading the text back gives the number. *)
Lemma digits_value_digits (radix n : Z) :
  2 <= radix <= 36 -> 0 <= n -> digits_value radix (digits radix n) = n.
Proof.
  intros Hr Hn. unfold digits.
  rewrite digits_loop_value; [cbn; lia | exact Hr |].
  split; [exact Hn | apply log2_fuel; lia].
Qed.

End Digits.

(** ** Strings of decimal digits *)

Section DecimalText.

Lemma all_chars_cons (p : ascii -> bool) (c : ascii) (s : string) :
  all_chars p (String c s) = p c && all_chars p s.
Proof. reflexivity. Qed.

Lemma all_chars_append (p : ascii -> bool) (s t : string) :
  all_chars p (s +:+ t) = all_chars p s && all_chars p t.
Proof.
  unfold all_chars. now rewrite list_ascii_of_append, forallb_app.
Qed.

Lemma digits_loop_decimal (fuel : nat) (n : Z) (acc : string) :
  all_chars is_decimal_digit acc = true ->
  all_chars is_decimal_digit (digits_loop fuel 10 n acc) = true.
Proof.
  revert n acc. induction fuel as [|fuel IH]; intros n acc Hacc; [exact Hacc|].
  rewrite digits_loop_step.
  assert (Hd : all_chars is_decimal_digit (String (digit_char (n mod 10)) acc) = true).
  { rewrite all_chars_cons, Hacc, digit_char_decimal; [reflexivity|].
    apply Z.mod_pos_bound. lia. }
  destruct (n / 10 =? 0); [exact Hd | now apply IH].
Qed.

Lemma digits_decimal (n : Z) : all_chars is_decimal_digit (digits 10 n) = true.
Proof. apply digits_loop_decimal. reflexivity. Qed.

Lemma zeros_value (radix : Z) (s : string) :
  all_chars is_zero_char s = true -> digits_value radix s = 0.
Proof.
  induction s as [|c s IH]; [reflexivity|].
  rewrite all_chars_cons. intros [Hc Hs]%andb_prop.
  apply Ascii.eqb_eq in Hc. subst c.
  cbn [digits_value]. rewrite (IH Hs). change (digit_of "0") with 0. lia.
Qed.

(** The text of a positive number has a digit other than 0. *)
Lemma digits_not_all_zero (n : Z) :
  0 < n -> all_chars is_zero_char (digits 10 n) = false.
Proof.
  intros Hn. destruct (all_chars is_zero_char (digits 10 n)) eqn:E; [|reflexivity].
  apply (zeros_value 10) in E. rewrite digits_value_digits in E; lia.
Qed.

Lemma strip_cons (c : ascii) (s : string) :
  strip_trailing_zeros (String c s)
  = match strip_trailing_zeros s with
    | EmptyString => if Ascii.eqb c "0" then EmptyString else String c EmptyString
    | rest => String c rest
    end.
Proof. reflexivity. Qed.

Lemma strip_empty (s : string) :
  strip_trailing_zeros s = EmptyString <-> all_chars is_zero_char s = true.
Proof.
  induction s as [|c s IH]; [split; reflexivity|].
  rewrite strip_cons, all_chars_cons. unfold is_zero_char at 1.
  destruct (strip_trailing_zeros s) as [|x r].
  - destruct IH as [IH _]. rewrite (IH eq_refl).
    destruct (Ascii.eqb c "0"); split; (reflexivity || discriminate).
  - split; [discriminate|]. intros [_ Hs]%andb_prop.
    apply IH in Hs. discriminate.
Qed.


Lemma strip_all_chars (p : ascii -> bool) (s : string) :
  all_chars p s = true -> all_chars p (strip_trailing_zeros s) = true.
Proof.
  induction s as [|c s IH]; [reflexivity|].
  rewrite strip_cons, all_chars_cons. intros [Hc Hs]%andb_prop.
  specialize (IH Hs). destruct (strip_trailing_zeros s) as [|x r].
  - destruct (Ascii.eqb c "0"); [reflexivity|].
    now rewrite all_chars_cons, Hc.
  - now rewrite all_chars_cons, Hc, IH.
Qed.

Lemma zeros_all_chars (p : ascii -> bool) (k : nat) :
  p "0"%char = true ->
  all_chars p (string_of_list_ascii (repeat "0"%char k)) = true.
Proof.
  intros H0. induction k as [|k IH]; [reflexivity|].
  cbn [repeat string_of_list_ascii]. now rewrite all_chars_cons, H0, IH.
Qed.

Lemma padStart0_all_chars (p : ascii -> bool) (target : Z) (s : string) :
  p "0"%char = true ->
  all_chars p (padStart0 target s) = all_chars p s.
Proof.
  intros H0. unfold padStart0. now rewrite all_chars_append, zeros_all_chars.
Qed.

Lemma count_char_none (c : ascii) (s : string) :
  is_decimal_digit c = false ->
  all_chars is_decimal_digit s = true -> count_char c s = 0%nat.
Proof.
  intros Hc. induction s as [|x s IH]; [reflexivity|].
  rewrite all_chars_cons. intros [Hx Hs]%andb_prop.
  cbn [count_char]. rewrite (IH Hs).
  destruct (Ascii.eqb x c) eqn:E; [|reflexivity].
  apply Ascii.eqb_eq in E. congruence.
Qed.

Lemma count_char_append (c : ascii) (s t : string) :
  count_char c (s +:+ t) = (count_char c s + count_char c t)%nat.
Proof.
  induction s as [|x s IH]; [reflexivity|].
  rewrite append_cons. cbn [count_char]. rewrite IH. lia.
Qed.



End DecimalText.

(** ** The divisor of [formatBalance] *)

Section Divisor.

Lemma Z_range_In (from : Z) (count : nat) (d : Z) :
  from <= d < from + Z.of_nat count -> In d (Z_range from count).
Proof.
  intros Hd. unfold Z_range.
  replace d with (from + Z.of_nat (Z.to_nat (d - from))) by lia.
  apply (in_map (fun k => from + Z.of_nat k)), in_seq. lia.
Qed.


Lemma divisors_exact_to_22 : forallb divisor_exact (Z_range 0 23) = true.
Proof. vm_compute. reflexivity. Qed.



(** Up to 22 decimals the divisor is the power of ten. *)
Lemma divisor_of_exact (d : Z) : 0 <= d <= 22 -> divisor_of d = Some (10 ^ d).
Proof.
  intros Hd. pose proof divisors_exact_to_22 as H.
  rewrite forallb_forall in H. specialize (H d (Z_range_In 0 23 d ltac:(lia))).
  unfold divisor_exact in H. destruct (divisor_of d) as [v|]; [|discriminate].
  apply Z.eqb_eq in H. now subst v.
Qed.


(** This does not hang on how [**] rounds: no binary64 value at all is
    [10 ^ d] once [d] reaches 23, because [5 ^ 23] needs more than 53
    bits. *)
Lemma no_Number_is_pow10 (d : Z) (sign : bool) (m : positive) (e : Z) :
  23 <= d -> Z.pos m < 2 ^ 53 ->
  BigInt_of_Number (S754_finite sign m e) <> Some (10 ^ d).
Proof.
  intros Hd Hm. unfold BigInt_of_Number.
  assert (H5 : 2 ^ 53 < 5 ^ d).
  { eapply Z.lt_le_trans with (5 ^ 23); [reflexivity|].
    apply Z.pow_le_mono_r; lia. }
  assert (H10 : 5 ^ d <= 10 ^ d) by (apply Z.pow_le_mono_l; lia).
  assert (Hsplit : 10 ^ d = 5 ^ d * 2 ^ d)
    by (rewrite <- Z.pow_mul_l; reflexivity).
  destruct (0 <=? e) eqn:He.
  - apply Z.leb_le in He. cbn [option_map]. intros [= E].
    destruct sign.
    + pose proof (Z.pow_pos_nonneg 2 e ltac:(lia) He). nia.
    + assert (Hdiv : (5 ^ d | 2 ^ e * Z.pos m)).
      { exists (2 ^ d). lia. }
      apply Z.gauss in Hdiv.
      * apply Z.divide_pos_le in Hdiv; lia.
      * apply Z.coprime_pow_l; [lia|]. apply Z.coprime_pow_r; [lia|].
        reflexivity.
  - apply Z.leb_gt in He.
    destruct (Z.pos m mod 2 ^ (- e) =? 0); [|discriminate].
    cbn [option_map]. intros [= E].
    assert (Hq : 0 <= Z.pos m / 2 ^ (- e) <= Z.pos m).
    { split; [apply Z.div_pos; [lia | apply Z.pow_pos_nonneg; lia]|].
      apply Z.div_le_upper_bound; [apply Z.pow_pos_nonneg; lia|].
      pose proof (Z.pow_pos_nonneg 2 (- e) ltac:(lia) ltac:(lia)). nia. }
    destruct sign; lia.
Qed.

End Divisor.

(** ** [formatBalance] *)

Section Format.

Lemma BigInt_toString_nonneg (n : Z) : 0 <= n -> BigInt_toString n = digits 10 n.
Proof.
  intros Hn. unfold BigInt_toString.
  destruct (n <? 0) eqn:E; [apply Z.ltb_lt in E; lia | reflexivity].
Qed.

Lemma formatBalance_divisor (v d D : Z) :
  divisor_of d = Some D -> 0 < D ->
  formatBalance v d
  = if Z.rem v D =? 0 then Normal (BigInt_toString (Z.quot v D))
    else Normal (BigInt_toString (Z.quot v D) +:+ "."
                   +:+ strip_trailing_zeros (padStart0 d (BigInt_toString (Z.rem v D)))).
Proof.
  intros HD Hpos. unfold formatBalance.
  change (BigInt_of_Number (Number_pow10 d)) with (divisor_of d). rewrite HD.
  destruct (D =? 0) eqn:E; [apply Z.eqb_eq in E; lia | reflexivity].
Qed.

(** On a non-negative balance: quotient and remainder by the divisor the
    code computed, whatever that divisor is. *)
Lemma formatBalance_shape (v d D : Z) :
  divisor_of d = Some D -> 0 < D -> 0 <= v ->
  formatBalance v d
  = Normal (if v mod D =? 0 then digits 10 (v / D)
            else digits 10 (v / D) +:+ "."
                   +:+ strip_trailing_zeros (padStart0 d (digits 10 (v mod D)))).
Proof.
  intros HD Hpos Hv. rewrite (formatBalance_divisor v d D HD Hpos).
  rewrite Z.quot_div_nonneg, Z.rem_mod_nonneg by lia.
  pose proof (Z.mod_pos_bound v D Hpos) as Hm.
  pose proof (Z.div_pos v D Hv Hpos) as Hq.
  rewrite !BigInt_toString_nonneg by lia.
  destruct (v mod D =? 0); reflexivity.
Qed.


(** X14. Up to 22 decimals the code is the exact formatter: on every
    non-negative balance it prints what division by the integer
    [10 ^ decimals] gives. *)
Lemma formatBalance_exact_to_22 (v d : Z) :
  0 <= v -> 0 <= d <= 22 ->
  formatBalance v d = Normal (FormatSpec.format v d).
Proof.
  intros Hv Hd.
  assert (Hpos : 0 < 10 ^ d) by (apply Z.pow_pos_nonneg; lia).
  rewrite (formatBalance_shape v d (10 ^ d) (divisor_of_exact d Hd) Hpos Hv).
  unfold FormatSpec.format. cbv zeta.
  pose proof (Z.mod_pos_bound v (10 ^ d) Hpos) as Hm.
  pose proof (Z.div_pos v (10 ^ d) Hv Hpos) as Hq.
  rewrite !BigInt_toString_nonneg by lia.
  destruct (v mod 10 ^ d =? 0); reflexivity.
Qed.


(** X16. Up to 22 decimals a whole number of tokens, [v * 10 ^ d] units,
    is printed as the decimal text of [v], without a point. *)
Lemma formatBalance_multiple_to_22 (v d : Z) :
  0 <= v -> 0 <= d <= 22 ->
  formatBalance (v * 10 ^ d) d = Normal (digits 10 v)
  /\ count_char "." (digits 10 v) = 0%nat.
Proof.
  intros Hv Hd.
  assert (Hpos : 0 < 10 ^ d) by (apply Z.pow_pos_nonneg; lia).
  rewrite (formatBalance_shape (v * 10 ^ d) d (10 ^ d) (divisor_of_exact d Hd) Hpos)
    by nia.
  rewrite Z.mod_mul, Z.div_mul by lia. split; [reflexivity|].
  apply count_char_none; [reflexivity | apply digits_decimal].
Qed.

End Format.

(** C1 at a balance of [10 ^ 24] with 24 decimals: [10 ** 24] is a
    Number, the double 999999999999999983222784, and that is what the
    balance is divided by; the result is "1.000000000000000016777216",
    where exact division by [10 ^ 24] gives whole part 1, remainder 0 and
    the text "1". *)
Theorem formatBalance_divides_by_a_double :
  divisor_of 24 = Some 999999999999999983222784
  /\ formatBalance (10 ^ 24) 24 = Normal "1.000000000000000016777216"%string
  /\ 10 ^ 24 / 10 ^ 24 = 1 /\ (10 ^ 24) mod 10 ^ 24 = 0
  /\ FormatSpec.format (10 ^ 24) 24 = "1"%string.
Proof. vm_compute. repeat split. Qed.

(** C4 at the exact multiple [7 * 10 ^ 24] with 24 decimals: the text has
    a point, "7.000000000000000117440512", where the claim has none
    (exactly, "7"). The four sample values of the claim do hold. *)
Theorem formatBalance_multiple_with_point :
  formatBalance (7 * 10 ^ 24) 24 = Normal "7.000000000000000117440512"%string
  /\ count_char "." "7.000000000000000117440512" = 1%nat
  /\ FormatSpec.format (7 * 10 ^ 24) 24 = "7"%string
  /\ formatBalance 123456789 8 = Normal "1.23456789"%string
  /\ formatBalance 100000000 8 = Normal "1"%string
  /\ formatBalance 100500000 8 = Normal "1.005"%string
  /\ formatBalance 0 8 = Normal "0"%string.
Proof. vm_compute. repeat split. Qed.

(* ===================================================================== *)
(** * Part III: further properties of the code                            *)
(* ===================================================================== *)

(** ** Network configuration *)

(** X1. [getNetworkConfig] returns a configuration exactly for the
    selectors "local" and "ic" (an unset or empty selector counting as
    "ic"): "local" gives the local replica at http://localhost:4943, "ic"
    gives https://icp-api.io; every other selector throws an [Error] whose
    message quotes that selector. *)
Theorem getNetworkConfig_cases (DFX_NETWORK : option string) :
  match getNetworkConfig DFX_NETWORK with
  | Normal cfg =>
      network cfg = network_or_ic DFX_NETWORK
      /\ ((network cfg = "local"%string /\ isLocal cfg = true
           /\ host cfg = "http://localhost:4943"%string)
          \/ (network cfg = "ic"%string /\ isLocal cfg = false
              /\ host cfg = "https://icp-api.io"%string))
  | Throws e =>
      network_or_ic DFX_NETWORK <> "local"%string
      /\ network_or_ic DFX_NETWORK <> "ic"%string
      /\ e = ErrorObject (invalid_network_message (network_or_ic DFX_NETWORK))
      /\ occurs_in (network_or_ic DFX_NETWORK) (errorMessage_of e)
  end
  /\ (DFX_NETWORK = None \/ DFX_NETWORK = Some EmptyString ->
      getNetworkConfig DFX_NETWORK
      = Normal {| network := "ic"; isLocal := false; host := "https://icp-api.io" |}).
Proof.
  split.
  - unfold getNetworkConfig. cbv zeta. cbn [existsb].
    destruct (String.eqb (network_or_ic DFX_NETWORK) "local") eqn:Hl.
    + apply String.eqb_eq in Hl. cbn [orb negb network isLocal host].
      split; [reflexivity|]. left. repeat split. exact Hl.
    + destruct (String.eqb (network_or_ic DFX_NETWORK) "ic") eqn:Hi.
      * apply String.eqb_eq in Hi. cbn [orb negb network isLocal host].
        split; [reflexivity|]. right. repeat split. exact Hi.
      * apply String.eqb_neq in Hl, Hi. cbn [orb negb].
        repeat split; try assumption.
        cbn [errorMessage_of]. unfold invalid_network_message.
        apply occurs_in_middle.
  - intros [-> | ->]; reflexivity.
Qed.

(** X2. Where [getNetworkConfig] accepts the selector, the constructor
    takes the same view of it: it asks the agent for the root key exactly
    when the configuration is local, and it hands out a service object
    with the given agent and an empty cache. *)
Theorem constructor_agrees_with_getNetworkConfig
    (DFX_NETWORK : option string) (a : HttpAgent) (cfg : NetworkConfig) :
  getNetworkConfig DFX_NETWORK = Normal cfg ->
  exists c : Constructed,
    constructor DFX_NETWORK a = Normal c
    /\ fetchRootKey_called c = isLocal cfg
    /\ agent (constructed c) = a
    /\ tokenInfoCache (constructed c) = ∅.
Proof.
  intros Hcfg. eexists. split; [reflexivity|].
  cbn [fetchRootKey_called constructed agent tokenInfoCache].
  repeat split.
  unfold getNetworkConfig in Hcfg. cbv zeta in Hcfg.
  destruct (negb _) in Hcfg; [discriminate|].
  injection Hcfg as <-. reflexivity.
Qed.

Lemma constructor_agrees_with_getNetworkConfig_witness :
  exists c : Constructed,
    constructor (Some "local"%string) some_agent = Normal c
    /\ fetchRootKey_called c = true.
Proof.
  destruct (constructor_agrees_with_getNetworkConfig (Some "local"%string) some_agent
              {| network := "local"; isLocal := true; host := "http://localhost:4943" |}
              eq_refl) as (c & Hc & Hkey & _).
  exists c. split; [exact Hc | exact Hkey].
Defined.

(** X3. A service object fresh from the factory has nothing cached: the
    first [getTokenInfo] of any token id whose actor can be created is
    suspended on one metadata request to that ledger, and leaves the
    service object as it is. *)
Theorem fresh_service_first_lookup_fetches
    (createActor : HttpAgent -> string -> Completion Actor)
    (DFX_NETWORK : option string) (a : HttpAgent) (c : Constructed)
    (id : string) (actor : Actor) :
  createTokenBalanceService DFX_NETWORK a = Normal c ->
  createActor a id = Normal actor ->
  let l := step createActor (start (constructed c)) (Invoke id) in
  issued l = [icrc1_metadata actor]
  /\ service l = constructed c
  /\ exists resume, slots l = [Waiting resume].
Proof.
  intros Hc Hactor l. injection Hc as <-.
  destruct (step_invoke_miss createActor
              (start {| agent := a; tokenInfoCache := ∅ |}) id actor)
    as (resume & Hstep & _); [apply lookup_empty | exact Hactor |].
  subst l. cbn [constructed]. rewrite Hstep. cbn [issued service slots start app].
  repeat split. exists resume. reflexivity.
Qed.

Lemma fresh_service_first_lookup_fetches_witness :
  issued (step createActor_any (start fresh_service) (Invoke CKBTC))
  = [icrc1_metadata {| actor_agent := some_agent; canisterId := CKBTC |}].
Proof.
  destruct (fresh_service_first_lookup_fetches createActor_any None some_agent
              {| constructed := fresh_service; fetchRootKey_called := false |}
              CKBTC {| actor_agent := some_agent; canisterId := CKBTC |}
              eq_refl eq_refl) as (H & _).
  exact H.
Defined.

(** ** [queryTokenBalance] and the service object *)

(** X4. [queryTokenBalance] neither reads nor writes the metadata cache:
    the service object comes out of a call as it was handed to it (after
    whatever the rest of the program did during the await), and the result
    is the same whatever the cache holds. *)
Theorem queryTokenBalance_leaves_service
    (createActor : HttpAgent -> string -> Completion Actor)
    (id : string) (holder : Principal) (sub : option (list byte))
    (this : TokenBalanceService) (ledger : Request -> Completion Z)
    (others : TokenBalanceService -> TokenBalanceService) :
  fst (complete ledger others (queryTokenBalance createActor id holder sub this))
  = match createActor (agent this) id with
    | Normal _ => others this
    | Throws _ => this
    end
  /\ forall cache : gmap string TokenInfo,
       snd (complete ledger others
              (queryTokenBalance createActor id holder sub
                 {| agent := agent this; tokenInfoCache := cache |}))
       = snd (complete ledger others
                (queryTokenBalance createActor id holder sub this)).
Proof.
  split.
  - destruct (createActor (agent this) id) as [actor|e] eqn:Ha.
    + destruct (queryTokenBalance_actor createActor id holder sub this actor Ha)
        as (resume & -> & Hok & Hfail).
      cbn [complete].
      destruct (ledger _) as [b|e]; [rewrite Hok | rewrite Hfail]; reflexivity.
    + now rewrite (queryTokenBalance_no_actor createActor id holder sub this e Ha).
  - intros cache. now rewrite !queryTokenBalance_complete.
Qed.

(** ** The bytes behind an account identifier *)

(** X5. [generateAccountId] does not check the length of the subaccount,
    and the hashed bytes do not mark where the principal ends: moving the
    last byte of the principal to the front of the subaccount gives the
    same identifier. *)
Theorem generateAccountId_boundary_not_marked
    (digest : list byte -> Completion (list byte))
    (p : list byte) (b : byte) (s : list byte) :
  generateAccountId digest {| toUint8Array := p ++ [b] |} (Some s)
  = generateAccountId digest {| toUint8Array := p |} (Some (b :: s)).
Proof.
  unfold generateAccountId, account_data. cbn [toUint8Array].
  now rewrite <- (app_assoc p [b] s).
Qed.

(** The bytes a subaccount argument stands for. *)
Lemma account_data_app (holder : Principal) (sub : option (list byte)) :
  account_data holder sub
  = padding ++ toUint8Array holder
      ++ match sub with Some s => s | None => repeat x00 32 end.
Proof. reflexivity. Qed.

(** X6. With subaccounts of 32 bytes (or none, which stands for 32 zero
    bytes) the hashed bytes determine the principal and the subaccount, so
    two accounts get the same identifier only if they are the same account
    or the digest collides. *)
Theorem account_data_injective (p1 p2 : Principal) (s1 s2 : option (list byte)) :
  (forall s, s1 = Some s -> length s = 32%nat) ->
  (forall s, s2 = Some s -> length s = 32%nat) ->
  account_data p1 s1 = account_data p2 s2 ->
  p1 = p2
  /\ match s1 with Some s => s | None => repeat x00 32 end
     = match s2 with Some s => s | None => repeat x00 32 end.
Proof.
  intros H1 H2 E. rewrite !account_data_app in E.
  apply app_inv_head in E.
  apply app_inj_2 in E.
  - destruct E as [Ep Es]. split; [|exact Es].
    destruct p1, p2. cbn [toUint8Array] in Ep. now subst.
  - destruct s1 as [s1|], s2 as [s2|];
      rewrite ?(H1 _ eq_refl), ?(H2 _ eq_refl), ?repeat_length; reflexivity.
Qed.

Lemma account_data_injective_witness :
  anonymous = anonymous /\ repeat x00 32 = repeat x00 32.
Proof.
  apply (account_data_injective anonymous anonymous None (Some (repeat x00 32))).
  - intros s Hs. discriminate Hs.
  - intros s Hs. injection Hs as <-. reflexivity.
  - reflexivity.
Defined.

(** X7. When the platform digest rejects, [generateAccountId] rejects with
    the same error, and that is the only way it fails: there is no
    fallback identifier. *)
Theorem generateAccountId_fails_with_digest
    (digest : list byte -> Completion (list byte))
    (holder : Principal) (sub : option (list byte)) (e : Thrown) :
  generateAccountId digest holder sub = Throws e
  <-> digest (account_data holder sub) = Throws e.
Proof.
  unfold generateAccountId.
  destruct (digest (account_data holder sub)) as [hash|e'].
  - split; discriminate.
  - split; intros [= ->]; reflexivity.
Qed.

(** ** Every run of the event loop *)

Section Runs.

Variable createActor : HttpAgent -> string -> Completion Actor.

Lemma run_app (events more : list Event) (l : Loop) :
  run createActor (events ++ more) l
  = run createActor more (run createActor events l).
Proof. apply fold_left_app. Qed.

(** What a call does to the loop: one more slot, at most one more
    request, the service object untouched. *)
Lemma step_invoke_cases (l : Loop) (id : string) :
  exists (slot : Slot) (requests : list Request),
    slot_ok slot /\ (length requests <= 1)%nat
    /\ step createActor l (Invoke id)
       = {| service := service l;
            slots := slots l ++ [slot];
            issued := issued l ++ requests |}.
Proof.
  destruct (tokenInfoCache (service l) !! id) as [v|] eqn:Hc.
  - exists (Returned (Normal v)), []. split; [eexists; reflexivity|].
    split; [cbn; lia|].
    rewrite (step_invoke_hit createActor l id v Hc). now rewrite app_nil_r.
  - destruct (createActor (agent (service l)) id) as [actor|e] eqn:Ha.
    + destruct (step_invoke_miss createActor l id actor Hc Ha)
        as (resume & Hstep & Hresume).
      exists (Waiting resume), [icrc1_metadata actor].
      split; [exists id; exact Hresume|]. split; [cbn; lia | exact Hstep].
    + exists (Returned (Normal fallback_TokenInfo)), [].
      split; [eexists; reflexivity|]. split; [cbn; lia|].
      unfold step.
      rewrite (getTokenInfo_no_actor createActor id (service l) e Hc Ha).
      cbn [enter]. now rewrite app_nil_r.
Qed.

(** What a settled promise does: nothing, or the waiting caller receives
    its value and the cache takes a success. *)
Lemma step_settle_cases (l : Loop) (caller : nat)
    (outcome : Completion (string * string * Z)) :
  Forall slot_ok (slots l) ->
  step createActor l (Settle caller outcome) = l
  \/ exists id,
       step createActor l (Settle caller outcome)
       = {| service := stored id outcome (service l);
            slots := <[caller := Returned (Normal (received outcome))]> (slots l);
            issued := issued l |}.
Proof.
  intros Hok.
  destruct (slots l !! caller) as [[resume|result]|] eqn:Hslot.
  - right. pose proof (proj1 (Forall_lookup _ _) Hok caller _ Hslot) as [id Hid].
    exists id. apply (step_settle createActor l caller id outcome resume Hslot Hid).
  - left. unfold step. now rewrite Hslot.
  - left. unfold step. now rewrite Hslot.
Qed.

Lemma step_slots_ok (l : Loop) (e : Event) :
  Forall slot_ok (slots l) -> Forall slot_ok (slots (step createActor l e)).
Proof.
  intros Hok. destruct e as [id|caller outcome].
  - destruct (step_invoke_cases l id) as (slot & requests & Hslot & _ & ->).
    cbn [slots]. apply Forall_app. split; [exact Hok | now constructor].
  - destruct (step_settle_cases l caller outcome Hok) as [-> | [id ->]];
      [exact Hok|].
    cbn [slots]. apply Forall_insert; [exact Hok | eexists; reflexivity].
Qed.

Lemma run_slots_ok (events : list Event) (l : Loop) :
  Forall slot_ok (slots l) -> Forall slot_ok (slots (run createActor events l)).
Proof.
  revert l. induction events as [|e events IH]; intros l Hok; [exact Hok|].
  rewrite run_cons. apply IH, step_slots_ok, Hok.
Qed.

Lemma start_slots_ok (this : TokenBalanceService) : Forall slot_ok (slots (start this)).
Proof. constructor. Qed.

(** X8. [getTokenInfo] never rejects: in every run of the loop, whatever
    the ledgers answer and in whatever order, a caller that has received
    something has received a value. *)
Theorem getTokenInfo_never_throws (events : list Event) (this : TokenBalanceService)
    (caller : nat) (result : Completion TokenInfo) :
  slots (run createActor events (start this)) !! caller = Some (Returned result) ->
  exists v : TokenInfo, result = Normal v.
Proof.
  intros Hslot.
  pose proof (run_slots_ok events (start this) (start_slots_ok this)) as Hok.
  exact (proj1 (Forall_lookup _ _) Hok caller _ Hslot).
Qed.

Lemma stored_agent (id : string) (outcome : Completion (string * string * Z))
    (this : TokenBalanceService) :
  agent (stored id outcome this) = agent this.
Proof. destruct outcome; reflexivity. Qed.

Lemma stored_keeps (id : string) (outcome : Completion (string * string * Z))
    (this : TokenBalanceService) (k : string) :
  is_Some (tokenInfoCache this !! k) ->
  is_Some (tokenInfoCache (stored id outcome this) !! k).
Proof.
  intros Hk. destruct outcome as [metadata|e]; [|exact Hk].
  cbn [stored with_TokenInfo tokenInfoCache].
  apply lookup_insert_is_Some. destruct (decide (id = k)); [left | right]; auto.
Qed.

Lemma step_keeps (l : Loop) (e : Event) (k : string) :
  Forall slot_ok (slots l) ->
  agent (service (step createActor l e)) = agent (service l)
  /\ (is_Some (tokenInfoCache (service l) !! k) ->
      is_Some (tokenInfoCache (service (step createActor l e)) !! k)).
Proof.
  intros Hok. destruct e as [id|caller outcome].
  - destruct (step_invoke_cases l id) as (slot & requests & _ & _ & ->).
    cbn [service]. split; [reflexivity | trivial].
  - destruct (step_settle_cases l caller outcome Hok) as [-> | [id ->]].
    + split; [reflexivity | trivial].
    + cbn [service]. split; [apply stored_agent | apply stored_keeps].
Qed.

Lemma run_keeps (events : list Event) (l : Loop) (k : string) :
  Forall slot_ok (slots l) ->
  agent (service (run createActor events l)) = agent (service l)
  /\ (is_Some (tokenInfoCache (service l) !! k) ->
      is_Some (tokenInfoCache (service (run createActor events l)) !! k)).
Proof.
  revert l. induction events as [|e events IH]; intros l Hok.
  - split; [reflexivity | trivial].
  - rewrite run_cons.
    destruct (step_keeps l e k Hok) as [Ha Hk].
    destruct (IH _ (step_slots_ok l e Hok)) as [Ha' Hk'].
    split; [now rewrite Ha', Ha | auto].
Qed.

(** X9. Nothing is ever evicted: a token id that has an entry keeps one
    through every run of the loop (its value may be replaced by a later
    fetch), and the agent of the service object never changes. *)
Theorem tokenInfoCache_never_evicts (events : list Event) (this : TokenBalanceService)
    (k : string) :
  is_Some (tokenInfoCache this !! k) ->
  is_Some (tokenInfoCache (service (run createActor events (start this))) !! k)
  /\ agent (service (run createActor events (start this))) = agent this.
Proof.
  intros Hk.
  destruct (run_keeps events (start this) k (start_slots_ok this)) as [Ha Hkeep].
  split; [apply Hkeep, Hk | exact Ha].
Qed.

Lemma step_counts (l : Loop) (e : Event) :
  Forall slot_ok (slots l) ->
  length (slots (step createActor l e))
  = (length (slots l) + if is_Invoke e then 1 else 0)%nat
  /\ (length (issued l) <= length (issued (step createActor l e))
      <= length (issued l) + if is_Invoke e then 1 else 0)%nat.
Proof.
  intros Hok. destruct e as [id|caller outcome]; cbn [is_Invoke].
  - destruct (step_invoke_cases l id) as (slot & requests & _ & Hlen & ->).
    cbn [slots issued]. rewrite !length_app. cbn [length]. lia.
  - destruct (step_settle_cases l caller outcome Hok) as [-> | [id ->]].
    + lia.
    + cbn [slots issued]. rewrite length_insert. lia.
Qed.

(** X10. In every run each call of [getTokenInfo] sends at most one
    metadata request and nothing else sends any: after a run the number of
    requests sent is at most the number of calls, and every call has its
    slot. *)
Theorem requests_bounded_by_calls (events : list Event) (this : TokenBalanceService) :
  length (slots (run createActor events (start this))) = count_invokes events
  /\ (length (issued (run createActor events (start this))) <= count_invokes events)%nat.
Proof.
  assert (H : forall l, Forall slot_ok (slots l) ->
            length (slots (run createActor events l))
            = (length (slots l) + count_invokes events)%nat
            /\ (length (issued (run createActor events l))
                <= length (issued l) + count_invokes events)%nat).
  { induction events as [|e events IH]; intros l Hok.
    - rewrite run_nil. cbn [count_invokes]. lia.
    - rewrite run_cons.
      destruct (step_counts l e Hok) as [Hs Hi].
      destruct (IH _ (step_slots_ok l e Hok)) as [Hs' Hi'].
      cbn [count_invokes]. lia. }
  destruct (H (start this) (start_slots_ok this)) as [Hs Hi].
  cbn [start slots issued length] in Hs, Hi. split; lia.
Qed.



End Runs.

Lemma getTokenInfo_never_throws_witness :
  exists v : TokenInfo, Normal fallback_TokenInfo = Normal v.
Proof.
  apply (getTokenInfo_never_throws createActor_any
           [Invoke ICP; Settle 0 (Throws network_down)] fresh_service 0).
  vm_compute. reflexivity.
Defined.

Lemma tokenInfoCache_never_evicts_witness :
  is_Some (tokenInfoCache
             (service (run createActor_any [Invoke ICP; Settle 0 (Normal ICP_metadata)]
                         (start (with_TokenInfo CKBTC fallback_TokenInfo fresh_service))))
             !! CKBTC).
Proof.
  apply (tokenInfoCache_never_evicts createActor_any
           [Invoke ICP; Settle 0 (Normal ICP_metadata)]
           (with_TokenInfo CKBTC fallback_TokenInfo fresh_service) CKBTC).
  exists fallback_TokenInfo. vm_compute. reflexivity.
Defined.


Section Memo.

Variable createActor : HttpAgent -> string -> Completion Actor.

Lemma repeat_snoc {A : Type} (x : A) (n : nat) : repeat x (S n) = repeat x n ++ [x].
Proof.
  induction n as [|n IH]; [reflexivity|].
  cbn [repeat app] in *. now rewrite <- IH.
Qed.

(** X12. Once a fetch for a token id has succeeded, lookups of that id are
    served from the cache: however many follow, each returns the fetched
    metadata at once and not one more request is sent. *)
Theorem getTokenInfo_memoizes (id : string) (this : TokenBalanceService)
    (actor : Actor) (metadata : string * string * Z) (n : nat) :
  tokenInfoCache this !! id = None ->
  createActor (agent this) id = Normal actor ->
  let l := run createActor
             ([Invoke id; Settle 0 (Normal metadata)] ++ repeat (Invoke id) n)
             (start this) in
  issued l = [icrc1_metadata actor]
  /\ slots l = repeat (Returned (Normal (TokenInfo_of metadata))) (S n)
  /\ service l = with_TokenInfo id (TokenInfo_of metadata) this.
Proof.
  intros Hmiss Hactor l. subst l.
  induction n as [|n IH].
  - rewrite app_nil_r, !run_cons, run_nil.
    destruct (step_invoke_miss createActor (start this) id actor Hmiss Hactor)
      as (resume & -> & Hresume).
    rewrite (step_settle createActor _ 0 id (Normal metadata) resume);
      [|reflexivity|exact Hresume].
    repeat split.
  - rewrite repeat_snoc, app_assoc, run_app.
    destruct IH as (Hissued & Hslots & Hservice).
    rewrite run_cons, run_nil.
    rewrite (step_invoke_hit createActor _ id (TokenInfo_of metadata)).
    + cbn [issued slots service]. rewrite Hissued, Hslots, Hservice.
      split; [reflexivity|]. split; [|reflexivity].
      now rewrite <- repeat_snoc.
    + rewrite Hservice. cbn [with_TokenInfo tokenInfoCache]. apply lookup_insert_eq.
Qed.

End Memo.

Lemma getTokenInfo_memoizes_witness :
  issued (run createActor_any
            ([Invoke ICP; Settle 0 (Normal ICP_metadata)] ++ repeat (Invoke ICP) 3)
            (start fresh_service))
  = [icrc1_metadata ICP_actor].
Proof.
  destruct (getTokenInfo_memoizes createActor_any ICP fresh_service ICP_actor
              ICP_metadata 3) as (H & _); [reflexivity | reflexivity | exact H].
Defined.

(** ** More on [formatBalance] *)

Section FormatMore.

Lemma append_length (a b : string) :
  String.length (a +:+ b) = (String.length a + String.length b)%nat.
Proof.
  induction a as [|c a IH]; [reflexivity|].
  rewrite append_cons. cbn [String.length]. now rewrite IH.
Qed.

Lemma zeros_length (k : nat) : String.length (zeros k) = k.
Proof.
  induction k as [|k IH]; [reflexivity|].
  unfold zeros in *. cbn [repeat string_of_list_ascii String.length]. now rewrite IH.
Qed.

Lemma zeros_succ (k : nat) : zeros (S k) = String "0" (zeros k).
Proof. reflexivity. Qed.

Lemma zeros_digits_value (radix : Z) (k : nat) : digits_value radix (zeros k) = 0.
Proof. apply zeros_value, zeros_all_chars. reflexivity. Qed.

Lemma digits_value_append (radix : Z) (a b : string) :
  digits_value radix (a +:+ b)
  = digits_value radix a * radix ^ Z.of_nat (String.length b) + digits_value radix b.
Proof.
  induction a as [|c a IH]; [rewrite append_empty_l; cbn [digits_value]; lia|].
  rewrite append_cons. cbn [digits_value]. rewrite IH, append_length.
  rewrite Nat2Z.inj_add, Z.pow_add_r by lia. lia.
Qed.

Lemma all_zero_is_zeros (s : string) :
  all_chars is_zero_char s = true -> s = zeros (String.length s).
Proof.
  induction s as [|c s IH]; [reflexivity|].
  rewrite all_chars_cons. intros [Hc Hs]%andb_prop.
  apply Ascii.eqb_eq in Hc. subst c.
  cbn [String.length]. rewrite zeros_succ. now rewrite <- (IH Hs).
Qed.

(** [replace(/0+$/, "")] takes away zeros at the end and nothing else. *)
Lemma strip_decompose (s : string) :
  exists k : nat, s = strip_trailing_zeros s +:+ zeros k.
Proof.
  induction s as [|c s [k IH]]; [exists 0%nat; reflexivity|].
  rewrite strip_cons. destruct (strip_trailing_zeros s) as [|x r] eqn:E.
  - assert (Hz : all_chars is_zero_char s = true) by now apply strip_empty.
    apply all_zero_is_zeros in Hz.
    destruct (Ascii.eqb c "0") eqn:Hc.
    + apply Ascii.eqb_eq in Hc. subst c.
      exists (S (String.length s)). rewrite append_empty_l, zeros_succ. now rewrite <- Hz.
    + exists (String.length s). rewrite append_cons, append_empty_l. now rewrite <- Hz.
  - exists k. rewrite append_cons. now rewrite <- IH.
Qed.

Lemma digits_loop_length (fuel : nat) :
  forall (n : Z) (acc : string) (k : nat),
    (1 <= k)%nat -> 0 <= n < 10 ^ Z.of_nat k ->
    (String.length (digits_loop fuel 10 n acc) <= String.length acc + k)%nat.
Proof.
  induction fuel as [|fuel IH]; intros n acc k Hk Hn; [cbn [digits_loop]; lia|].
  rewrite digits_loop_step. destruct (n / 10 =? 0) eqn:Hq.
  - cbn [String.length]. lia.
  - apply Z.eqb_neq in Hq.
    destruct k as [|[|k]]; [lia | |].
    + change (10 ^ Z.of_nat 1) with 10 in Hn.
      rewrite Z.div_small in Hq by lia. lia.
    + specialize (IH (n / 10) (String (digit_char (n mod 10)) acc) (S k)).
      cbn [String.length] in IH.
      assert (Hn' : 0 <= n / 10 < 10 ^ Z.of_nat (S k)).
      { rewrite (Nat2Z.inj_succ (S k)), Z.pow_succ_r in Hn by lia.
        split; [apply Z.div_pos; lia | apply Z.div_lt_upper_bound; lia]. }
      specialize (IH ltac:(lia) Hn'). lia.
Qed.

Lemma digits_length (n d : Z) :
  1 <= d -> 0 <= n < 10 ^ d -> Z.of_nat (String.length (digits 10 n)) <= d.
Proof.
  intros Hd Hn. unfold digits.
  pose proof (digits_loop_length (S (Z.to_nat (Z.log2 n))) n EmptyString (Z.to_nat d)) as H.
  rewrite Z2Nat.id in H by lia. cbn [String.length] in H.
  specialize (H ltac:(lia) Hn). lia.
Qed.

Lemma padStart0_zeros (target : Z) (s : string) :
  padStart0 target s = zeros (Z.to_nat target - String.length s) +:+ s.
Proof. reflexivity. Qed.

(** X17. Up to 22 decimals the text loses nothing: it is a whole part and,
    after the point, at most [decimals] digits, all decimal digits, and
    reading them back (the fraction filled up with zeros to [decimals]
    digits) gives the balance. *)
Theorem formatBalance_lossless (v d : Z) :
  0 <= v -> 0 <= d <= 22 ->
  exists whole frac : string,
    formatBalance v d
    = Normal (match frac with
              | EmptyString => whole
              | _ => whole +:+ "." +:+ frac
              end)
    /\ all_chars is_decimal_digit whole = true
    /\ all_chars is_decimal_digit frac = true
    /\ Z.of_nat (String.length frac) <= d
    /\ digits_value 10 whole * 10 ^ d
       + digits_value 10 frac * 10 ^ (d - Z.of_nat (String.length frac)) = v.
Proof.
  intros Hv Hd.
  assert (Hpos : 0 < 10 ^ d) by (apply Z.pow_pos_nonneg; lia).
  rewrite (formatBalance_shape v d (10 ^ d) (divisor_of_exact d Hd) Hpos Hv).
  pose proof (Z.mod_pos_bound v (10 ^ d) Hpos) as Hm.
  pose proof (Z.div_pos v (10 ^ d) Hv Hpos) as Hq.
  pose proof (Z.div_mod v (10 ^ d) ltac:(lia)) as Hdm.
  exists (digits 10 (v / 10 ^ d)).
  destruct (v mod 10 ^ d =? 0) eqn:E.
  - apply Z.eqb_eq in E. exists EmptyString.
    split; [reflexivity|]. split; [apply digits_decimal|]. split; [reflexivity|].
    split; [cbn; lia|].
    rewrite digits_value_digits by lia. cbn [digits_value]. lia.
  - apply Z.eqb_neq in E.
    set (r := v mod 10 ^ d) in *.
    assert (Hd1 : 1 <= d).
    { destruct (Z.eq_dec d 0) as [-> | ?]; [|lia].
      subst r. rewrite Z.mod_1_r in E. lia. }
    set (padded := padStart0 d (digits 10 r)).
    pose proof (digits_length r d Hd1 ltac:(lia)) as Hlen.
    assert (Hplen : Z.of_nat (String.length padded) = d).
    { subst padded. rewrite padStart0_zeros, append_length, zeros_length. lia. }
    assert (Hpval : digits_value 10 padded = r).
    { subst padded. rewrite padStart0_zeros, digits_value_append, zeros_digits_value.
      rewrite digits_value_digits by lia. lia. }
    destruct (strip_decompose padded) as [k Hk].
    exists (strip_trailing_zeros padded).
    assert (Hne : strip_trailing_zeros padded <> EmptyString).
    { intros Hempty. apply strip_empty in Hempty. subst padded.
      rewrite padStart0_all_chars in Hempty by reflexivity.
      rewrite digits_not_all_zero in Hempty by lia. discriminate. }
    split; [destruct (strip_trailing_zeros padded); [congruence | reflexivity]|].
    split; [apply digits_decimal|].
    split.
    { apply strip_all_chars. subst padded.
      rewrite padStart0_all_chars by reflexivity. apply digits_decimal. }
    assert (Hk' : Z.of_nat (String.length (strip_trailing_zeros padded)) + Z.of_nat k = d).
    { rewrite <- Hplen. rewrite Hk at 2. rewrite append_length, zeros_length. lia. }
    split; [lia|].
    rewrite digits_value_digits by lia.
    replace (d - Z.of_nat (String.length (strip_trailing_zeros padded)))
      with (Z.of_nat k) by lia.
    assert (Hval : digits_value 10 (strip_trailing_zeros padded) * 10 ^ Z.of_nat k = r).
    { rewrite <- Hpval. rewrite Hk at 2.
      rewrite digits_value_append, zeros_length, zeros_digits_value. lia. }
    rewrite Hval. lia.
Qed.

End FormatMore.

Lemma formatBalance_lossless_witness :
  exists whole frac : string,
    formatBalance 100500000 8
    = Normal (match frac with
              | EmptyString => whole
              | _ => whole +:+ "." +:+ frac
              end)
    /\ digits_value 10 whole * 10 ^ 8
       + digits_value 10 frac * 10 ^ (8 - Z.of_nat (String.length frac)) = 100500000.
Proof.
  destruct (formatBalance_lossless 100500000 8) as (w & f & H1 & _ & _ & _ & H2);
    [lia | lia |].
  exists w, f. split; [exact H1 | exact H2].
Defined.

Section FormatEdges.

Lemma count_char_zeros (c : ascii) (k : nat) :
  c <> "0"%char -> count_char c (zeros k) = 0%nat.
Proof.
  intros Hc. induction k as [|k IH]; [reflexivity|].
  rewrite zeros_succ. cbn [count_char]. rewrite IH.
  destruct (Ascii.eqb "0" c) eqn:E; [|reflexivity].
  apply Ascii.eqb_eq in E. congruence.
Qed.

Lemma count_char_strip (c : ascii) (s : string) :
  c <> "0"%char -> count_char c (strip_trailing_zeros s) = count_char c s.
Proof.
  intros Hc. induction s as [|x s IH]; [reflexivity|].
  rewrite strip_cons. cbn [count_char]. rewrite <- IH.
  destruct (strip_trailing_zeros s) as [|y r]; [|reflexivity].
  destruct (Ascii.eqb x "0") eqn:E; [|reflexivity].
  apply Ascii.eqb_eq in E. subst x. cbn [count_char].
  destruct (Ascii.eqb "0" c) eqn:E'; [|reflexivity].
  apply Ascii.eqb_eq in E'. congruence.
Qed.

Lemma count_char_BigInt_toString_point (n : Z) :
  count_char "." (BigInt_toString n) = 0%nat.
Proof.
  unfold BigInt_toString. destruct (n <? 0).
  - cbn [count_char]. change (Ascii.eqb "-" ".") with false.
    apply count_char_none; [reflexivity | apply digits_decimal].
  - apply count_char_none; [reflexivity | apply digits_decimal].
Qed.

(** X18. A negative balance that is not a multiple of the divisor is
    printed with a second minus sign after the point (-15 with one
    decimal gives "-1.-5"): the remainder of a bigint division has the
    sign of the dividend and its text goes into the fraction as it is. *)
Theorem formatBalance_negative_fraction (v d : Z) :
  v < 0 -> 0 <= d <= 22 -> Z.rem v (10 ^ d) <> 0 ->
  exists whole frac : string,
    formatBalance v d = Normal (whole +:+ "." +:+ frac)
    /\ whole = BigInt_toString (Z.quot v (10 ^ d))
    /\ count_char "." whole = 0%nat
    /\ count_char "-" frac = 1%nat.
Proof.
  intros Hv Hd Hr.
  assert (Hpos : 0 < 10 ^ d) by (apply Z.pow_pos_nonneg; lia).
  rewrite (formatBalance_divisor v d (10 ^ d) (divisor_of_exact d Hd) Hpos).
  destruct (Z.rem v (10 ^ d) =? 0) eqn:E; [apply Z.eqb_eq in E; congruence|].
  eexists. eexists. split; [reflexivity|]. split; [reflexivity|].
  split; [apply count_char_BigInt_toString_point|].
  rewrite count_char_strip by discriminate.
  rewrite padStart0_zeros, count_char_append, count_char_zeros by discriminate.
  pose proof (Z.rem_bound_pos_neg v (10 ^ d) Hpos ltac:(lia)) as Hb.
  unfold BigInt_toString.
  destruct (Z.rem v (10 ^ d) <? 0) eqn:Hneg; [|apply Z.ltb_ge in Hneg; lia].
  cbn [count_char]. change (Ascii.eqb "-" "-") with true.
  rewrite (count_char_none "-"); [reflexivity | reflexivity | apply digits_decimal].
Qed.




End FormatEdges.

Lemma formatBalance_negative_fraction_witness :
  exists whole frac : string,
    formatBalance (-15) 1 = Normal (whole +:+ "." +:+ frac)
    /\ count_char "-" frac = 1%nat.
Proof.
  destruct (formatBalance_negative_fraction (-15) 1) as (w & f & H1 & _ & _ & H2);
    [lia | lia | vm_compute; discriminate |].
  exists w, f. split; [exact H1 | exact H2].
Defined.




Lemma formatBalance_exact_to_22_witness :
  formatBalance 123456789 8 = Normal (FormatSpec.format 123456789 8).
Proof. apply formatBalance_exact_to_22; lia. Defined.


Lemma formatBalance_multiple_to_22_witness :
  formatBalance (42 * 10 ^ 18) 18 = Normal (digits 10 42).
Proof. apply formatBalance_multiple_to_22; lia. Defined.

Example format_negative : formatBalance (-15) 1 = Normal "-1.-5"%string.
Proof. vm_compute. reflexivity. Qed.

(** ** [toHex] read back *)

Lemma hex_byte_reads_back (b : byte) :
  HexRead.nibble_of (HexSpec.nibble_char (byte_to_Z b / 16)) = Some (byte_to_Z b / 16)
  /\ HexRead.nibble_of (HexSpec.nibble_char (byte_to_Z b mod 16))
     = Some (byte_to_Z b mod 16)
  /\ Uint8_store (16 * (byte_to_Z b / 16) + byte_to_Z b mod 16) = b.
Proof. destruct b; vm_compute; repeat split. Qed.

Lemma decode_toHex (l : list byte) : HexRead.decode (toHex l) = Some l.
Proof.
  induction l as [|b l IH]; [reflexivity|].
  rewrite toHex_cons, hex_byte_nibbles, !append_cons, append_empty_l.
  destruct (hex_byte_reads_back b) as (Hh & Hl & Hb).
  cbn [HexRead.decode]. now rewrite Hh, Hl, IH, Hb.
Qed.

(** X21. [toHex] writes two characters of [0-9a-f] for every byte, and the
    text can be read back: decoding it gives the bytes again, so two byte
    arrays with the same text are the same array. *)
Theorem toHex_reads_back (l : list byte) :
  HexRead.decode (toHex l) = Some l
  /\ String.length (toHex l) = (2 * length l)%nat
  /\ forallb HexSpec.is_lower_hex (list_ascii_of_string (toHex l)) = true
  /\ forall l' : list byte, toHex l = toHex l' -> l = l'.
Proof.
  split; [apply decode_toHex|].
  split; [rewrite toHex_encode; apply encode_length|].
  split; [apply toHex_lower|].
  intros l' E. pose proof (decode_toHex l) as H. rewrite E, decode_toHex in H.
  now injection H.
Qed.

(** ** What the checksum detects *)

Section CrcDetection.
Import Int32.

Lemma lxor_range (a b : Z) :
  0 <= a < 2 ^ 32 -> 0 <= b < 2 ^ 32 -> 0 <= Z.lxor a b < 2 ^ 32.
Proof.
  intros Ha Hb.
  rewrite <- (ToUint32_small a Ha), <- (ToUint32_small b Hb), <- ToUint32_lxor.
  apply ToUint32_range.
Qed.

Lemma lxor_cancel_r (a b c : Z) : Z.lxor a c = Z.lxor b c -> a = b.
Proof.
  intros E. apply (f_equal (fun z => Z.lxor z c)) in E.
  now rewrite !Z.lxor_assoc, Z.lxor_nilpotent, !Z.lxor_0_r in E.
Qed.

Lemma lxor_cancel_l (a b c : Z) : Z.lxor c a = Z.lxor c b -> a = b.
Proof. rewrite !(Z.lxor_comm c). apply lxor_cancel_r. Qed.

Lemma half_range (r : Z) : 0 <= r < 2 ^ 32 -> 0 <= r / 2 < 2 ^ 31.
Proof.
  intros Hr. split; [apply Z.div_pos; lia | apply Z.div_lt_upper_bound; lia].
Qed.

Lemma shift_bit_range (r : Z) :
  0 <= r < 2 ^ 32 -> 0 <= Reference.shift_bit r < 2 ^ 32.
Proof.
  intros Hr. pose proof (half_range r Hr) as Hh. unfold Reference.shift_bit.
  destruct (Z.odd r); [|lia].
  apply lxor_range; [lia | unfold Reference.poly; lia].
Qed.

(** The polynomial has its top bit set, so the bit shifted out can be read
    off bit 31 of the result. *)
Lemma shift_bit_top (r : Z) :
  0 <= r < 2 ^ 32 -> Z.testbit (Reference.shift_bit r) 31 = Z.odd r.
Proof.
  intros Hr. pose proof (half_range r Hr) as Hh.
  assert (Hhigh : Z.testbit (r / 2) 31 = false).
  { rewrite <- (Z.mod_small (r / 2) (2 ^ 31)) by lia.
    apply Z.mod_pow2_bits_high. lia. }
  unfold Reference.shift_bit. destruct (Z.odd r); [|exact Hhigh].
  rewrite Z.lxor_spec, Hhigh. reflexivity.
Qed.

Lemma shift_bit_inj (a b : Z) :
  0 <= a < 2 ^ 32 -> 0 <= b < 2 ^ 32 ->
  Reference.shift_bit a = Reference.shift_bit b -> a = b.
Proof.
  intros Ha Hb E.
  assert (Hodd : Z.odd a = Z.odd b)
    by (rewrite <- (shift_bit_top a Ha), <- (shift_bit_top b Hb); now rewrite E).
  assert (Hhalf : a / 2 = b / 2).
  { unfold Reference.shift_bit in E. rewrite <- Hodd in E.
    destruct (Z.odd a); [exact (lxor_cancel_r _ _ _ E) | exact E]. }
  rewrite (Z.div_mod a 2), (Z.div_mod b 2) by lia.
  now rewrite !Zmod_odd, Hodd, Hhalf.
Qed.

Lemma shift_bits_range (n : nat) (r : Z) :
  0 <= r < 2 ^ 32 -> 0 <= Nat.iter n Reference.shift_bit r < 2 ^ 32.
Proof.
  intros Hr. induction n as [|n IH]; [exact Hr|].
  rewrite Nat.iter_succ. now apply shift_bit_range.
Qed.

Lemma shift_bits_inj (n : nat) (a b : Z) :
  0 <= a < 2 ^ 32 -> 0 <= b < 2 ^ 32 ->
  Nat.iter n Reference.shift_bit a = Nat.iter n Reference.shift_bit b -> a = b.
Proof.
  intros Ha Hb. induction n as [|n IH]; [trivial|].
  rewrite !Nat.iter_succ. intros E.
  apply IH, shift_bit_inj; [apply shift_bits_range, Ha | apply shift_bits_range, Hb | exact E].
Qed.

Lemma byte_in_range (x : byte) : 0 <= byte_to_Z x < 2 ^ 32.
Proof. pose proof (byte_to_Z_range x). lia. Qed.

Lemma feed_byte_range (r : Z) (x : byte) :
  0 <= r < 2 ^ 32 -> 0 <= Reference.feed_byte r x < 2 ^ 32.
Proof.
  intros Hr. unfold Reference.feed_byte.
  apply shift_bits_range, lxor_range; [exact Hr | apply byte_in_range].
Qed.

Lemma byte_to_Z_inj (x y : byte) : byte_to_Z x = byte_to_Z y -> x = y.
Proof.
  unfold byte_to_Z. intros E. apply N2Z.inj in E.
  pose proof (Byte.of_to_N x) as Hx. rewrite E, Byte.of_to_N in Hx.
  now injection Hx.
Qed.

Lemma feed_byte_inj_byte (r : Z) (x y : byte) :
  0 <= r < 2 ^ 32 -> Reference.feed_byte r x = Reference.feed_byte r y -> x = y.
Proof.
  intros Hr E. unfold Reference.feed_byte in E.
  apply shift_bits_inj in E;
    [| apply lxor_range; [exact Hr | apply byte_in_range]
     | apply lxor_range; [exact Hr | apply byte_in_range]].
  apply byte_to_Z_inj, (lxor_cancel_l _ _ r), E.
Qed.

Lemma feed_byte_inj_reg (a b : Z) (x : byte) :
  0 <= a < 2 ^ 32 -> 0 <= b < 2 ^ 32 ->
  Reference.feed_byte a x = Reference.feed_byte b x -> a = b.
Proof.
  intros Ha Hb E. unfold Reference.feed_byte in E.
  apply shift_bits_inj in E;
    [| apply lxor_range; [exact Ha | apply byte_in_range]
     | apply lxor_range; [exact Hb | apply byte_in_range]].
  exact (lxor_cancel_r _ _ _ E).
Qed.

Lemma feed_bytes_range (data : list byte) (r : Z) :
  0 <= r < 2 ^ 32 -> 0 <= fold_left Reference.feed_byte data r < 2 ^ 32.
Proof.
  revert r. induction data as [|x data IH]; intros r Hr; [exact Hr|].
  rewrite fold_left_cons. apply IH, feed_byte_range, Hr.
Qed.

Lemma feed_bytes_inj (data : list byte) (a b : Z) :
  0 <= a < 2 ^ 32 -> 0 <= b < 2 ^ 32 ->
  fold_left Reference.feed_byte data a = fold_left Reference.feed_byte data b -> a = b.
Proof.
  revert a b. induction data as [|x data IH]; intros a b Ha Hb E; [exact E|].
  rewrite !fold_left_cons in E.
  apply IH in E; [| apply feed_byte_range, Ha | apply feed_byte_range, Hb].
  exact (feed_byte_inj_reg a b x Ha Hb E).
Qed.

Lemma byte_to_Z_store (v : Z) : 0 <= v < 256 -> byte_to_Z (Uint8_store v) = v.
Proof.
  intros Hv. unfold Uint8_store, byte_to_Z. rewrite Z.mod_small by lia.
  destruct (Byte.of_N (Z.to_N v)) as [b|] eqn:E.
  - apply Byte.to_of_N in E. rewrite E. lia.
  - apply Byte.of_N_None_iff in E. lia.
Qed.

Lemma big_endian32_inj (v w : Z) :
  0 <= v < 2 ^ 32 -> 0 <= w < 2 ^ 32 ->
  Reference.big_endian32 v = Reference.big_endian32 w -> v = w.
Proof.
  intros Hv Hw E. unfold Reference.big_endian32 in E.
  injection E as E3 E2 E1 E0.
  apply (f_equal byte_to_Z) in E3, E2, E1, E0.
  rewrite !byte_to_Z_store in E3, E2, E1, E0 by (apply Z.mod_pos_bound; lia).
  change (2 ^ 24) with 16777216 in *. change (2 ^ 16) with 65536 in *.
  change (2 ^ 8) with 256 in *. change (2 ^ 32) with 4294967296 in *.
  Z.div_mod_to_equations. lia.
Qed.

(** X22. The checksum catches every corruption confined to one byte: two
    byte sequences that differ in exactly one position (any number of
    bits of that byte) never have the same [calculateCRC32]. *)
Theorem calculateCRC32_detects_byte_change (before after : list byte) (x y : byte) :
  x <> y ->
  calculateCRC32 (before ++ x :: after) <> calculateCRC32 (before ++ y :: after).
Proof.
  intros Hxy E. rewrite !calculateCRC32_reference in E.
  apply big_endian32_inj in E; [| apply crc32_range | apply crc32_range].
  unfold Reference.crc32 in E. apply lxor_cancel_r in E.
  rewrite !fold_left_app, !fold_left_cons in E.
  assert (Hr : 0 <= fold_left Reference.feed_byte before 0xFFFFFFFF < 2 ^ 32)
    by (apply feed_bytes_range; lia).
  apply feed_bytes_inj in E; [| apply feed_byte_range, Hr | apply feed_byte_range, Hr].
  apply feed_byte_inj_byte in E; [congruence | exact Hr].
Qed.

End CrcDetection.

Lemma calculateCRC32_detects_byte_change_witness :
  x36 <> x37
  /\ calculateCRC32 (bytes_of_string "12345" ++ x36 :: bytes_of_string "789")
     <> calculateCRC32 (bytes_of_string "12345" ++ x37 :: bytes_of_string "789").
Proof.
  assert (H : x36 <> x37) by discriminate.
  split; [exact H | apply calculateCRC32_detects_byte_change, H].
Defined.

(** ** Failures are not remembered *)

Section Retries.

Variable createActor : HttpAgent -> string -> Completion Actor.

Lemma failed_lookup (l : Loop) (id : string) (actor : Actor) (e : Thrown) :
  tokenInfoCache (service l) !! id = None ->
  createActor (agent (service l)) id = Normal actor ->
  run createActor [Invoke id; Settle (length (slots l)) (Throws e)] l
  = {| service := service l;
       slots := slots l ++ [Returned (Normal fallback_TokenInfo)];
       issued := issued l ++ [icrc1_metadata actor] |}.
Proof.
  intros Hmiss Hactor. rewrite !run_cons, run_nil.
  destruct (step_invoke_miss createActor l id actor Hmiss Hactor)
    as (resume & -> & Hresume).
  rewrite (step_settle createActor _ (length (slots l)) id (Throws e) resume);
    [| cbn [slots]; apply list_lookup_middle; reflexivity | exact Hresume].
  cbn [service slots issued stored received]. f_equal.
  rewrite insert_app_r_alt, Nat.sub_diag by lia. reflexivity.
Qed.

Lemma failing_lookups_run (id : string) (actor : Actor) (e : Thrown) (n : nat) :
  forall l : Loop,
    tokenInfoCache (service l) !! id = None ->
    createActor (agent (service l)) id = Normal actor ->
    run createActor (failing_lookups id e (length (slots l)) n) l
    = {| service := service l;
         slots := slots l ++ repeat (Returned (Normal fallback_TokenInfo)) n;
         issued := issued l ++ repeat (icrc1_metadata actor) n |}.
Proof.
  induction n as [|n IH]; intros l Hmiss Hactor.
  - cbn [failing_lookups repeat]. rewrite run_nil, !app_nil_r. now destruct l.
  - cbn [failing_lookups].
    change (Invoke id :: Settle (length (slots l)) (Throws e)
              :: failing_lookups id e (S (length (slots l))) n)
      with ([Invoke id; Settle (length (slots l)) (Throws e)]
              ++ failing_lookups id e (S (length (slots l))) n).
    rewrite run_app, (failed_lookup l id actor e Hmiss Hactor).
    specialize (IH {| service := service l;
                      slots := slots l ++ [Returned (Normal fallback_TokenInfo)];
                      issued := issued l ++ [icrc1_metadata actor] |}).
    cbn [service slots issued] in IH.
    rewrite length_app, Nat.add_1_r in IH. rewrite (IH Hmiss Hactor).
    cbn [repeat]. now rewrite <- !app_assoc.
Qed.

(** X23. A failed fetch is not remembered: [n] lookups of an uncached
    token id, one after the other and each failing, send [n] requests,
    hand [n] fallbacks to their callers and leave the service object as
    it was. *)
Theorem getTokenInfo_retries_every_time (id : string) (this : TokenBalanceService)
    (actor : Actor) (e : Thrown) (n : nat) :
  tokenInfoCache this !! id = None ->
  createActor (agent this) id = Normal actor ->
  let l := run createActor (failing_lookups id e 0 n) (start this) in
  issued l = repeat (icrc1_metadata actor) n
  /\ slots l = repeat (Returned (Normal fallback_TokenInfo)) n
  /\ service l = this.
Proof.
  intros Hmiss Hactor l. subst l.
  pose proof (failing_lookups_run id actor e n (start this) Hmiss Hactor) as H.
  cbn [start slots service issued length app] in H. rewrite H.
  repeat split.
Qed.

(** X24. When the actor cannot be created (a canister id the agent library
    refuses), [getTokenInfo] answers with the fallback at once: however
    often it is called, nothing is sent and nothing is stored. *)
Theorem getTokenInfo_without_actor (id : string) (this : TokenBalanceService)
    (e : Thrown) (n : nat) :
  tokenInfoCache this !! id = None ->
  createActor (agent this) id = Throws e ->
  let l := run createActor (repeat (Invoke id) n) (start this) in
  issued l = []
  /\ slots l = repeat (Returned (Normal fallback_TokenInfo)) n
  /\ service l = this.
Proof.
  intros Hmiss Hactor l. subst l.
  induction n as [|n IH]; [repeat split|].
  rewrite repeat_snoc, run_app, run_cons, run_nil.
  destruct IH as (Hissued & Hslots & Hservice).
  unfold step.
  rewrite Hservice, (getTokenInfo_no_actor createActor id this e Hmiss Hactor).
  cbn [enter service slots issued]. rewrite Hissued, Hslots.
  repeat split. now rewrite <- repeat_snoc.
Qed.

(** X25. One call of [queryTokenBalance] sends one request, the balance
    query for the structured account (the subaccount wrapped in a
    one-element array when given, an empty array when not), and sends
    nothing when the actor cannot be created. It does not retry and does
    not ask for metadata. *)
Theorem queryTokenBalance_one_request
    (id : string) (holder : Principal) (sub : option (list byte))
    (this : TokenBalanceService) (ledger : Request -> Completion Z)
    (others : TokenBalanceService -> TokenBalanceService) :
  requests_of ledger others (queryTokenBalance createActor id holder sub this)
  = match createActor (agent this) id with
    | Normal actor =>
        [icrc1_balance_of actor
           {| owner := holder;
              subaccount := match sub with Some s => [s] | None => [] end |}]
    | Throws _ => []
    end.
Proof.
  destruct (createActor (agent this) id) as [actor|e] eqn:Ha.
  - destruct (queryTokenBalance_actor createActor id holder sub this actor Ha)
      as (resume & -> & Hok & Hfail).
    cbn [requests_of].
    destruct (ledger _) as [b|e]; [rewrite Hok | rewrite Hfail]; reflexivity.
  - now rewrite (queryTokenBalance_no_actor createActor id holder sub this e Ha).
Qed.

End Retries.

Lemma getTokenInfo_retries_every_time_witness :
  issued (run createActor_any (failing_lookups ICP network_down 0 3) (start fresh_service))
  = repeat (icrc1_metadata ICP_actor) 3.
Proof.
  destruct (getTokenInfo_retries_every_time createActor_any ICP fresh_service
              ICP_actor network_down 3) as (H & _);
    [reflexivity | reflexivity | exact H].
Defined.

Lemma getTokenInfo_without_actor_witness :
  issued (run (fun _ _ => Throws network_down) (repeat (Invoke ICP) 2)
            (start fresh_service)) = [].
Proof.
  destruct (getTokenInfo_without_actor (fun _ _ => Throws network_down) ICP
              fresh_service network_down 2) as (H & _);
    [reflexivity | reflexivity | exact H].
Defined.

(** ** Sample evaluations *)

Example crc_check_value :
  calculateCRC32 (bytes_of_string "123456789") = [xcb; xf4; x39; x26].
Proof. vm_compute. reflexivity. Qed.

Example crc_empty : calculateCRC32 [] = [x00; x00; x00; x00].
Proof. vm_compute. reflexivity. Qed.

Example crc_known_values :
  Reference.crc32 (bytes_of_string "a") = 0xE8B7BE43
  /\ Reference.crc32 (bytes_of_string "The quick brown fox jumps over the lazy dog")
     = 0x414FA339
  /\ calculateCRC32 (bytes_of_string "The quick brown fox jumps over the lazy dog")
     = [x41; x4f; xa3; x39].
Proof. vm_compute. repeat split. Qed.

Example hex_sample : toHex [x00; x0a; xff; x7b] = "000aff7b"%string.
Proof. vm_compute. reflexivity. Qed.

Example hex_sample_spec : HexSpec.encode [x00; x0a; xff; x7b] = "000aff7b"%string.
Proof. vm_compute. reflexivity. Qed.

Example toString_samples :
  BigInt_toString 0 = "0"%string /\ BigInt_toString 1005 = "1005"%string
  /\ BigInt_toString (-42) = "-42"%string
  /\ BigInt_toString (10 ^ 23) = "100000000000000000000000"%string.
Proof. vm_compute. repeat split. Qed.

Example strip_samples :
  strip_trailing_zeros "00500000" = "005"%string
  /\ strip_trailing_zeros "000" = ""%string
  /\ strip_trailing_zeros "1002003" = "1002003"%string.
Proof. vm_compute. repeat split. Qed.

Example padStart_samples :
  padStart0 8 "500000" = "00500000"%string /\ padStart0 3 "12345" = "12345"%string.
Proof. vm_compute. repeat split. Qed.

Example sha224_abc :
  toHex (SHA224.sha224 (bytes_of_string "abc"))
  = "23097d223405d8228642a477bda255b32aadbce4bda0b3f7e36c9da7"%string.
Proof. vm_compute. reflexivity. Qed.

Example sha224_empty :
  toHex (SHA224.sha224 [])
  = "d14a028c2a3a2bc9476102bb288234c415a2b01f828ea62ac5b3e42f"%string.
Proof. vm_compute. reflexivity. Qed.

Example sha224_two_blocks :
  toHex (SHA224.sha224
           (bytes_of_string "abcdbcdecdefdefgefghfghighijhijkijkljklmklmnlmnomnopnopq"))
  = "75388b16512776cc5dba5da1fd890150b0c6455cb4f58b1952522525"%string.
Proof. vm_compute. reflexivity. Qed.

(** A failed lookup of the ICP ledger leaves a cached ckBTC entry alone. *)
Example failure_leaves_other_entry :
  let ckBTC_info := {| name := "ckBTC"; symbol := "ckBTC"; decimals := 8 |} in
  let before := with_TokenInfo CKBTC ckBTC_info fresh_service in
  let after := run createActor_any [Invoke ICP; Settle 0 (Throws network_down)]
                 (start before) in
  tokenInfoCache (service after) !! CKBTC = Some ckBTC_info
  /\ tokenInfoCache (service after) !! ICP = None
  /\ slots after = [Returned (Normal fallback_TokenInfo)].
Proof. vm_compute. repeat split. Qed.

(** The well-known default account identifier of the anonymous principal. *)
Example anonymous_account_id :
  generateAccountId subtle_digest_sha224 anonymous None
  = Normal "1c7a48ba6a562aa9eaa2481a9049cdf0433b9738c992d698c31d8abf89cadc79"%string.
Proof. vm_compute. reflexivity. Qed.

Example format_samples :
  formatBalance 123456789 8 = Normal "1.23456789"%string
  /\ formatBalance 100000000 8 = Normal "1"%string
  /\ formatBalance 100500000 8 = Normal "1.005"%string
  /\ formatBalance 0 8 = Normal "0"%string.
Proof. vm_compute. repeat split. Qed.

Example divisor_22 : BigInt_of_Number (Number_pow10 22) = Some (10 ^ 22).
Proof. vm_compute. reflexivity. Qed.

Example divisor_23 :
  BigInt_of_Number (Number_pow10 23) = Some 99999999999999991611392.
Proof. vm_compute. reflexivity. Qed.

(** A divisor above the power of ten: the whole part comes out one short. *)
Example format_25 :
  divisor_of 25 = Some 10000000000000000905969664
  /\ formatBalance (7 * 10 ^ 25) 25 = Normal "6.9999999999999994564182016"%string.
Proof. vm_compute. repeat split. Qed.

Example divisor_309 : BigInt_of_Number (Number_pow10 309) = None.
Proof. vm_compute. reflexivity. Qed.

Example divisor_neg : BigInt_of_Number (Number_pow10 (-1)) = None.
Proof. vm_compute. reflexivity. Qed.
